(** * prompt_box: the template variable engine and the error log

    A shallow embedding of [src/utils/templateEngine.ts]
    ([extractVariables], [applyVariables]) and of the in-memory history of
    [src/utils/errorHandler.ts] ([ErrorHandler.logError],
    [ErrorHandler.getErrorLog], [ErrorHandler.clearErrorLog]).

    Modelling choices.
    - A JavaScript string is the list of its UTF-16 code units; the pattern
      has no [u] flag, so matching and [trim] work on code units.
    - The pattern of both functions is the literal [/\{([^}]+)\}/g].  A
      RegExp object with the [g] flag carries one mutable slot, [lastIndex];
      the objects live in a store, a regular-expression literal allocates a
      new one each time it is evaluated, and [matchAll] and [replace] read
      and write the slot the way ECMAScript prescribes.
    - A call either completes normally, throws, or exhausts the fuel of the
      matching loop; the last two are shown never to happen.
    - [values : Record<string, string>] is a plain object: a finite map
      from strings to strings for its own entries, and the members it
      inherits from [Object.prototype], which [values[key]] finds too.

    Part I continues with the code around these two: the rest of the error
    handler, the editor and the reducer that call the template engine, the
    export and import of prompts, the storage, and the paging of the list.
    - Numbers (time stamps, page numbers, lengths) hold integers and are
      modelled in [Z] or [nat].
    - [Date.now()], [generateId()] and the stack of a new [Error] are read
      from the environment and passed in.
    - [JSON.stringify] and [JSON.parse] are variables of a section; parsed
      data is a value of the type [json].
    - The values of the [metadata] of an error context are kept as
      strings. *)

From stdpp Require Import base numbers option list gmap strings pretty.
From Stdlib Require Import Ascii.

(** * Part I: the model *)

(** ** Strings *)

Abbreviation code_unit := N (only parsing).
Abbreviation jsstring := (list N) (only parsing).

(** An ASCII literal as a JavaScript string. *)
Definition js (s : string) : jsstring :=
  N_of_ascii <$> String.list_ascii_of_string s.

Definition lbrace : code_unit := 123%N.
Definition rbrace : code_unit := 125%N.

(** WhiteSpace and LineTerminator code points, the ones [trim] strips. *)
Definition is_whitespace (c : code_unit) : bool :=
  ((c =? 9) || (c =? 10) || (c =? 11) || (c =? 12) || (c =? 13) || (c =? 32)
   || (c =? 160) || (c =? 5760) || ((8192 <=? c) && (c <=? 8202))
   || (c =? 8232) || (c =? 8233) || (c =? 8239) || (c =? 8287)
   || (c =? 12288) || (c =? 65279))%N.

Fixpoint trimStart (s : jsstring) : jsstring :=
  match s with
  | c :: s' => if is_whitespace c then trimStart s' else s
  | [] => []
  end.

Definition trimEnd (s : jsstring) : jsstring :=
  reverse (trimStart (reverse s)).

(** [String.prototype.trim] *)
Definition trim (s : jsstring) : jsstring := trimEnd (trimStart s).

(** ToBoolean on a string: the empty string is the only falsy one. *)
Definition truthy (s : jsstring) : bool :=
  match s with [] => false | _ :: _ => true end.

(** ** The pattern [\{([^}]+)\}] *)

(** The result of a successful match: where it starts, the matched text
    ([m[0]]) and the capture groups ([m[1]], ...); a group that took no part
    in the match is [undefined], here [None]. *)
Record MatchResult := mkMatch {
  index : nat;
  matched : jsstring;
  captures : list (option jsstring)
}.

(** [m[i]] *)
Definition match_get (m : MatchResult) (i : nat) : option jsstring :=
  match i with
  | O => Some (matched m)
  | S j => mjoin (captures m !! j)
  end.

(** The longest run of [[^}]] characters at the head of [s], and what
    follows it. *)
Fixpoint class_run (s : jsstring) : jsstring * jsstring :=
  match s with
  | c :: s' =>
      if (c =? rbrace)%N then ([], s)
      else let '(g, r) := class_run s' in (c :: g, r)
  | [] => ([], [])
  end.

(** The pattern anchored at the head of [s], the match starting at index [i].
    [[^}]+] is greedy; after its longest run comes either a [}] or the end of
    the input, and a shorter run is followed by a character that is not [}],
    so backtracking never finds a match the longest run misses. *)
Definition pattern_at (s : jsstring) (i : nat) : option MatchResult :=
  match s with
  | c :: s1 =>
      if (c =? lbrace)%N then
        match class_run s1 with
        | (c1 :: g, r :: _) =>
            Some (mkMatch i (c :: (c1 :: g) ++ [r]) [Some (c1 :: g)])
        | _ => None
        end
      else None
  | [] => None
  end.

(** The search loop of RegExpBuiltinExec: try the pattern at the current
    index, and on failure advance by one code unit.  [s] is the input from
    index [i] on. *)
Fixpoint search (s : jsstring) (i : nat) : option MatchResult :=
  match pattern_at s i with
  | Some m => Some m
  | None =>
      match s with
      | _ :: s' => search s' (S i)
      | [] => None
      end
  end.

(** ** The store of RegExp objects and the monad of calls *)

Record RegExp := mkRegExp { lastIndex : nat }.

Abbreviation Heap := (list RegExp) (only parsing).
Abbreviation loc := nat (only parsing).

Inductive exception := TypeError.

Inductive completion (A : Type) :=
  | Normal (a : A)
  | Throw (e : exception)
  | OutOfFuel.
Arguments Normal {A} a.
Arguments Throw {A} e.
Arguments OutOfFuel {A}.

Definition JS (A : Type) : Type := Heap → completion A * Heap.

#[global] Instance JS_ret : MRet JS := λ A a h, (Normal a, h).

#[global] Instance JS_bind : MBind JS := λ A B f m h,
  match m h with
  | (Normal a, h') => f a h'
  | (Throw e, h') => (Throw e, h')
  | (OutOfFuel, h') => (OutOfFuel, h')
  end.

Definition throw {A} (e : exception) : JS A := λ h, (Throw e, h).

Definition out_of_fuel {A} : JS A := λ h, (OutOfFuel, h).

(** Evaluating the literal [/\{([^}]+)\}/g]: a new object, [lastIndex] 0. *)
Definition new_RegExp : JS loc :=
  λ h, (Normal (length h), h ++ [mkRegExp 0]).

Definition get_lastIndex (r : loc) : JS nat :=
  λ h, match h !! r with
       | Some o => (Normal (lastIndex o), h)
       | None => (Throw TypeError, h)
       end.

Definition set_lastIndex (r : loc) (n : nat) : JS unit :=
  λ h, match h !! r with
       | Some _ => (Normal (), <[r := mkRegExp n]> h)
       | None => (Throw TypeError, h)
       end.

(** RegExpBuiltinExec for a global pattern: start at [lastIndex]; on failure
    reset [lastIndex] to 0, on success move it to the end of the match. *)
Definition RegExpExec (r : loc) (str : jsstring) : JS (option MatchResult) :=
  i ← get_lastIndex r;
  if decide (length str < i) then
    set_lastIndex r 0;; mret None
  else
    match search (drop i str) i with
    | None => set_lastIndex r 0;; mret None
    | Some m => set_lastIndex r (index m + length (matched m));; mret (Some m)
    end.

(** The loop shared by the [matchAll] iterator and by [replace]: call
    RegExpExec until it fails; after an empty match step over one code
    unit. *)
Fixpoint exec_all (fuel : nat) (r : loc) (str : jsstring) : JS (list MatchResult) :=
  match fuel with
  | O => out_of_fuel
  | S fuel' =>
      o ← RegExpExec r str;
      match o with
      | None => mret []
      | Some m =>
          (if truthy (matched m) then mret ()
           else (i ← get_lastIndex r; set_lastIndex r (S i)));;
          ms ← exec_all fuel' r str;
          mret (m :: ms)
      end
  end.

(** [S.matchAll(r)]: the iterator works on a copy of [r] that starts at
    [r]'s [lastIndex]; the matches are listed in the order the iterator
    yields them.  The loop that consumes them in [extractVariables] does
    not touch the store, so listing them before the loop runs changes
    nothing. *)
Definition matchAll (str : jsstring) (r : loc) : JS (list MatchResult) :=
  i ← get_lastIndex r;
  matcher ← new_RegExp;
  set_lastIndex matcher i;;
  exec_all (S (length str)) matcher str.

(** The second half of [S.replace(r, f)]: the text between the matches is
    copied, each match is replaced by what [f] returns for it. *)
Fixpoint replace_results (str : jsstring) (results : list MatchResult)
    (f : jsstring → option jsstring → JS jsstring)
    (nextSourcePosition : nat) (accumulatedResult : jsstring) : JS jsstring :=
  match results with
  | [] => mret (accumulatedResult ++ drop nextSourcePosition str)
  | m :: results' =>
      replacement ← f (matched m) (match_get m 1);
      if decide (nextSourcePosition ≤ index m) then
        replace_results str results' f (index m + length (matched m))
          (accumulatedResult
             ++ take (index m - nextSourcePosition) (drop nextSourcePosition str)
             ++ replacement)
      else replace_results str results' f nextSourcePosition accumulatedResult
  end.

(** [S.replace(r, f)] for a global [r]: [lastIndex] is reset, all matches
    are collected, then the replacer is called on each. *)
Definition replace (str : jsstring) (r : loc)
    (f : jsstring → option jsstring → JS jsstring) : JS jsstring :=
  set_lastIndex r 0;;
  results ← exec_all (S (length str)) r str;
  replace_results str results f 0 [].

(** ** Set, for..of, method calls *)

(** A [Set<string>] keeps its elements in insertion order. *)
Abbreviation JSSet := (list jsstring) (only parsing).

Definition Set_new : JSSet := [].

Definition Set_add (x : jsstring) (s : JSSet) : JSSet :=
  if decide (x ∈ s) then s else s ++ [x].

Definition Array_from (s : JSSet) : list jsstring := s.

(** [for (const x of xs) body], the loop state passed along. *)
Fixpoint for_of {A St} (xs : list A) (body : St → A → JS St) (st : St) : JS St :=
  match xs with
  | [] => mret st
  | x :: xs' => st' ← body st x; for_of xs' body st'
  end.

(** [x.trim()]: a TypeError when [x] is [undefined]. *)
Definition call_trim (x : option jsstring) : JS jsstring :=
  match x with
  | Some s => mret (trim s)
  | None => throw TypeError
  end.

(** [o ?? d] *)
Definition nullish {A} (o : option A) (d : A) : A := default d o.
Infix "??" := nullish (at level 40, left associativity).

(** ** Plain objects

    [values] is a plain object: it has its own entries, kept in a finite
    map, and it inherits the members of [Object.prototype].  The code
    modelled here does one thing with a value it reads, it turns it into
    text ([String.prototype.replace] applies [ToString] to what the callback
    returns), so a member is kept as the text [String] gives for it.  The
    text of a built-in function has the form ECMAScript prescribes
    ([function name() { [native code] }], the white space is up to the
    engine and written here as V8 writes it); [__proto__] is an accessor
    whose getter returns [Object.prototype] itself. *)

Definition native_function (name : string) : jsstring :=
  js "function " ++ js name ++ js "() { [native code] }".

Definition Object_prototype : gmap jsstring jsstring :=
  list_to_map
    [(js "constructor", native_function "Object");
     (js "__defineGetter__", native_function "__defineGetter__");
     (js "__defineSetter__", native_function "__defineSetter__");
     (js "hasOwnProperty", native_function "hasOwnProperty");
     (js "__lookupGetter__", native_function "__lookupGetter__");
     (js "__lookupSetter__", native_function "__lookupSetter__");
     (js "isPrototypeOf", native_function "isPrototypeOf");
     (js "propertyIsEnumerable", native_function "propertyIsEnumerable");
     (js "toString", native_function "toString");
     (js "valueOf", native_function "valueOf");
     (js "__proto__", js "[object Object]");
     (js "toLocaleString", native_function "toLocaleString")].

(** [o[key]] for a plain object [o]: its own entry, else the member it
    inherits, else [undefined]. *)
Definition Get (o : gmap jsstring jsstring) (key : jsstring) : option jsstring :=
  match o !! key with
  | Some v => Some v
  | None => Object_prototype !! key
  end.

(** ** templateEngine.ts *)

Definition extractVariables (template : jsstring) : JS (list jsstring) :=
  variablePattern ← new_RegExp;
  matches ← matchAll template variablePattern;
  variables ← for_of matches (λ variables match_,
      variableName ← call_trim (match_get match_ 1);
      if truthy variableName then mret (Set_add variableName variables)
      else mret variables) Set_new;
  mret (Array_from variables).

Definition applyVariables (template : jsstring)
    (values : gmap jsstring jsstring) : JS jsstring :=
  let result := template in
  variablePattern ← new_RegExp;
  result ← replace result variablePattern (λ match_ variableName,
      key ← call_trim variableName;
      let value := (Get values key) ?? [] in
      mret value);
  mret result.

(** A call started in store [h] returns [a]. *)
Definition returns {A} (m : JS A) (h : Heap) (a : A) : Prop :=
  (m h).1 = Normal a.

(** ** The references of a template, read off the text

    The declarative reading used in the statements: the next reference of a
    text is the leftmost [{], followed by at least one character, up to the
    first [}] after it. *)

(** The text up to the first [}], and the text after it. *)
Fixpoint first_close (s : jsstring) : option (jsstring * jsstring) :=
  match s with
  | [] => None
  | c :: s' =>
      if (c =? rbrace)%N then Some ([], s')
      else (λ '(g, post), (c :: g, post)) <$> first_close s'
  end.

(** The next reference of [s]: the literal text before it, its interior,
    and the text after its closing brace. *)
Fixpoint next_reference (s : jsstring) : option (jsstring * jsstring * jsstring) :=
  match s with
  | [] => None
  | c :: s' =>
      let later := (λ '(pre, g, post), (c :: pre, g, post)) <$> next_reference s' in
      if (c =? lbrace)%N then
        match first_close s' with
        | Some (c1 :: g, post) => Some ([], c1 :: g, post)
        | _ => later
        end
      else later
  end.

(** All references from left to right, each with the literal text before
    it, and the literal text after the last one. *)
Fixpoint scan_fuel (n : nat) (s : jsstring) : list (jsstring * jsstring) * jsstring :=
  match n with
  | O => ([], s)
  | S n' =>
      match next_reference s with
      | None => ([], s)
      | Some (pre, g, post) =>
          let '(refs, tail) := scan_fuel n' post in ((pre, g) :: refs, tail)
      end
  end.

Definition scan (s : jsstring) : list (jsstring * jsstring) * jsstring :=
  scan_fuel (length s) s.

(** The interiors of the references of [t], in order. *)
Definition interiors (t : jsstring) : list jsstring := (scan t).1.*2.

(** The names the references of [t] give: trimmed, the empty ones left out. *)
Definition reference_names (t : jsstring) : list jsstring :=
  filter (λ x, x ≠ []) (trim <$> interiors t).

(** A list without its repetitions, each element kept where it first
    occurs. *)
Fixpoint first_occurrences (l : list jsstring) : list jsstring :=
  match l with
  | [] => []
  | x :: l' => x :: filter (λ y, y ≠ x) (first_occurrences l')
  end.

(** The text [refs] and [tail] were read off. *)
Definition reassemble (refs : list (jsstring * jsstring)) (tail : jsstring) : jsstring :=
  foldr (λ '(pre, g) acc, pre ++ lbrace :: g ++ rbrace :: acc) tail refs.

(** The text with every reference replaced by what [f] gives for its
    interior. *)
Definition render (f : jsstring → jsstring)
    (refs : list (jsstring * jsstring)) (tail : jsstring) : jsstring :=
  foldr (λ '(pre, g) acc, pre ++ f g ++ acc) tail refs.

(** Literal text between references: every [{] in it is directly followed
    by a [}]. *)
Definition empty_braces_only (pre : jsstring) : Prop :=
  ∀ i, pre !! i = Some lbrace → pre !! S i = Some rbrace.

(** Every [{] of [s] has a [}] after it in [s]: nothing that begins in [s]
    is still open at its end, so what follows [s] is read on its own.  (A
    [{] with no [}] after it would take the text that follows into its
    reference.) *)
Fixpoint closed (s : jsstring) : bool :=
  match s with
  | [] => true
  | c :: s' =>
      (if (c =? lbrace)%N then bool_decide (rbrace ∈ s') else true) && closed s'
  end.

(** [t] holds no reference: nowhere in it a [{], an interior that is not
    empty and holds no [}], and a [}]. *)
Definition no_reference (t : jsstring) : Prop :=
  ∀ pre a rest, a ≠ [] → rbrace ∉ a → t ≠ pre ++ lbrace :: a ++ rbrace :: rest.

(** The name a reference with interior [a] gives, if any. *)
Definition name_of (a : jsstring) : list jsstring :=
  if decide (trim a = []) then [] else [trim a].

(** What the search loop returns for the next reference. *)
Definition result_at (i : nat) (pre g : jsstring) : MatchResult :=
  mkMatch (i + length pre) (lbrace :: g ++ [rbrace]) [Some g].

(** ** What the matching loop returns for the references *)

(** The results the loop produces for the references [refs] of the text
    that starts at index [i]. *)
Fixpoint results_of (i : nat) (refs : list (jsstring * jsstring)) : list MatchResult :=
  match refs with
  | [] => []
  | (pre, g) :: refs' =>
      let m := result_at i pre g in
      m :: results_of (index m + length (matched m)) refs'
  end.

(** ** Positions, names and values *)

(** The position at which [x] first occurs in [l] ([length l] when it does
    not occur). *)
Fixpoint first_index (x : jsstring) (l : list jsstring) : nat :=
  match l with
  | [] => 0
  | y :: l' => if decide (y = x) then 0 else S (first_index x l')
  end.

(** What one turn of the loop of [extractVariables] does to the Set. *)
Definition add_name (variables : JSSet) (variableName : jsstring) : JSSet :=
  if truthy variableName then Set_add variableName variables else variables.

(** The value [applyVariables] puts in place of a reference with interior
    [g]. *)
Definition value_for (values : gmap jsstring jsstring) (g : jsstring) : jsstring :=
  (Get values (trim g)) ?? [].

(** The template with every reference replaced by what [f] gives for its
    interior. *)
Definition substitute (f : jsstring → jsstring) (t : jsstring) : jsstring :=
  render f (scan t).1 (scan t).2.

(** A name that neither starts nor ends with whitespace. *)
Definition no_outer_whitespace (n : jsstring) : bool :=
  match n, reverse n with
  | a :: _, b :: _ => negb (is_whitespace a) && negb (is_whitespace b)
  | _, _ => false
  end.

(** ** The replacement as the specification words it *)

(** The replacement of a reference by the words of the specification: the
    mapping's value for the trimmed name, and the empty string when that
    name is absent from the mapping or is empty. *)
Definition value_as_specified (values : gmap jsstring jsstring)
    (g : jsstring) : jsstring :=
  if decide (trim g = []) then [] else (values !! trim g) ?? [].

Definition replaces_as_specified (template : jsstring)
    (values : gmap jsstring jsstring) : Prop :=
  ∀ h, returns (applyVariables template values) h
         (substitute (value_as_specified values) template).

(** ** Counting occurrences *)

(** [w] is the text of [s] from its first position on. *)
Fixpoint starts_with (w s : jsstring) : bool :=
  match w, s with
  | [], _ => true
  | a :: w', b :: s' => (a =? b)%N && starts_with w' s'
  | _ :: _, [] => false
  end.

(** The number of positions of [s] at which the text [w] occurs. *)
Fixpoint occurrences (w s : jsstring) : nat :=
  match s with
  | [] => 0
  | _ :: s' => (if starts_with w s then 1 else 0) + occurrences w s'
  end.

(** The number of times the code unit [c] occurs in [s]. *)
Definition count (c : code_unit) (s : jsstring) : nat :=
  length (filter (λ d, d = c) s).

(** The number of references of [template] whose name is [x]. *)
Definition reference_count (x : jsstring) (template : jsstring) : nat :=
  length (filter (λ g, trim g = x) (interiors template)).

(** The text of [template] outside its references. *)
Definition literal_text (template : jsstring) : jsstring :=
  concat (scan template).1.*1 ++ (scan template).2.

(** [values] gives every name of [vars] a non-empty value, and different
    names different values. *)
Definition sentinel_mapping (vars : list jsstring)
    (values : gmap jsstring jsstring) : bool :=
  forallb (λ x, match values !! x with Some (_ :: _) => true | _ => false end) vars
  && bool_decide (NoDup ((λ x, values !! x) <$> vars)).

(** The code unit [c] marks the value [s] of the name [x]: it occurs once in
    [s], and neither in the text of [template] outside the references nor in
    the value of another name. *)
Definition marker (c : code_unit) (x s : jsstring) (template : jsstring)
    (values : gmap jsstring jsstring) : Prop :=
  count c s = 1 ∧ (c ∉ literal_text template) ∧
  map_Forall (λ y v, y ≠ x → c ∉ v) values.

(** The round trip as the specification words it: with a mapping that gives
    every extracted name a non-empty value of its own, each value occurs in
    the output, as often as the template refers to its name. *)
Definition round_trip_as_stated (template : jsstring)
    (values : gmap jsstring jsstring) : Prop :=
  ∀ h vars out x s,
    returns (extractVariables template) h vars →
    sentinel_mapping vars values = true →
    returns (applyVariables template values) h out →
    x ∈ vars → values !! x = Some s →
    1 ≤ occurrences s out ∧ occurrences s out = reference_count x template.

(** ** errorHandler.ts: the in-memory history

    Only the part of [ErrorHandler] that owns the history is modelled: the
    console output of [consoleLog] and the empty [sendToErrorService] come
    after the history is updated and do not touch it.  [Date.now()] and the
    stack the engine gives a new [Error] are inputs of the call.  The
    [handle...Error] methods each make one [logError] call. *)

Module ErrorHandler.

Inductive ErrorSeverity := LOW | MEDIUM | HIGH | CRITICAL.

Inductive ErrorCategory := STORAGE | NETWORK | VALIDATION | RUNTIME | UNKNOWN.

Record ErrorContext := {
  userId : option jsstring;
  action : option jsstring;
  component : option jsstring;
  metadata : option (list (jsstring * jsstring))
}.

(** An [Error] object, as far as the handler reads it. *)
Record Error := { Error_message : jsstring; Error_stack : option jsstring }.

(** The value handed to [logError]: an [Error], or anything else, of which
    only [String(error)] is used. *)
Inductive thrown :=
  | AnError (e : Error)
  | Other (text : jsstring).

Record LoggedError := {
  message : jsstring;
  error : Error;
  severity : ErrorSeverity;
  category : ErrorCategory;
  context : option ErrorContext;
  timestamp : Z;
  stack : option jsstring
}.

(** The fields of the class. *)
Record state := {
  errorLog : list LoggedError;
  maxLogSize : nat
}.

(** [new ErrorHandler()] *)
Definition new : state := {| errorLog := []; maxLogSize := 100 |}.

(** The arguments of one [logError] call, with what the call reads from its
    environment. *)
Record call := {
  arg_error : thrown;
  arg_severity : option ErrorSeverity;
  arg_category : option ErrorCategory;
  arg_context : option ErrorContext;
  Date_now : Z;
  new_Error_stack : option jsstring
}.

(** The entry [logError] builds. *)
Definition loggedError (c : call) : LoggedError :=
  let severity := default MEDIUM (arg_severity c) in
  let category := default UNKNOWN (arg_category c) in
  let errorObj :=
    match arg_error c with
    | AnError e => e
    | Other text => {| Error_message := text; Error_stack := new_Error_stack c |}
    end in
  {| message := Error_message errorObj;
     error := errorObj;
     severity := severity;
     category := category;
     context := arg_context c;
     timestamp := Date_now c;
     stack := Error_stack errorObj |}.

(** [Array.prototype.shift], the removed element dropped. *)
Definition shift {A} (l : list A) : list A := tail l.

Definition logError (this : state) (c : call) : state :=
  let errorLog := errorLog this ++ [loggedError c] in
  let errorLog :=
    if decide (maxLogSize this < length errorLog) then shift errorLog
    else errorLog in
  {| errorLog := errorLog; maxLogSize := maxLogSize this |}.

(** [l.slice(start)] for an integer [start]. *)
Definition slice {A} (start : Z) (l : list A) : list A :=
  let len := Z.of_nat (length l) in
  let k := if (start <? 0)%Z then Z.max (len + start) 0 else Z.min start len in
  drop (Z.to_nat k) l.

(** [getErrorLog(limit)], for an absent or an integer [limit]; 0 is falsy. *)
Definition getErrorLog (this : state) (limit : option Z) : list LoggedError :=
  match limit with
  | Some n => if (n =? 0)%Z then errorLog this else slice (- n) (errorLog this)
  | None => errorLog this
  end.

Definition clearErrorLog (this : state) : state :=
  {| errorLog := []; maxLogSize := maxLogSize this |}.

(** A call as [handleStorageError(new Error("Storage version mismatch"),
    "load")] makes it, at time [now]. *)
Definition storage_failure (now : Z) : call :=
  {| arg_error := AnError {| Error_message := js "Storage version mismatch";
                             Error_stack := None |};
     arg_severity := Some MEDIUM;
     arg_category := Some STORAGE;
     arg_context := Some {| userId := None; action := Some (js "load");
                            component := None; metadata := None |};
     Date_now := now;
     new_Error_stack := None |}.

(** The calls that change the history. *)
Inductive method_call :=
  | LogError (c : call)
  | ClearErrorLog.

Definition step (this : state) (m : method_call) : state :=
  match m with
  | LogError c => logError this c
  | ClearErrorLog => clearErrorLog this
  end.

(** The handler after the calls [ms], made in this order on a new handler. *)
Definition run (ms : list method_call) : state := foldl step new ms.

(** The handler after the [logError] calls [cs]. *)
Definition after (cs : list call) : state := run (LogError <$> cs).

(** [{ ...context }]: the fields of [context], none when it is
    [undefined]. *)
Definition spread (context : option ErrorContext) : ErrorContext :=
  default {| userId := None; action := None; component := None;
             metadata := None |} context.

(** [handleStorageError(error, operation, context)].  [DOMException_name] is
    [Some name] when [error instanceof DOMException], with [name] its
    [error.name]. *)
Definition handleStorageError (this : state) (error : thrown)
    (DOMException_name : option jsstring) (operation : jsstring)
    (context : option ErrorContext) (now : Z) (stack' : option jsstring) : state :=
  let severity :=
    match DOMException_name with
    | Some name =>
        if decide (name = js "QuotaExceededError") then HIGH
        else if decide (name = js "SecurityError") then CRITICAL
        else MEDIUM
    | None => MEDIUM
    end in
  let category := STORAGE in
  logError this
    {| arg_error := error;
       arg_severity := Some severity;
       arg_category := Some category;
       arg_context :=
         Some {| userId := userId (spread context);
                 action := Some operation;
                 component := component (spread context);
                 metadata := metadata (spread context) |};
       Date_now := now;
       new_Error_stack := stack' |}.

(** [handleImportExportError(error, operation, context)] *)
Definition handleImportExportError (this : state) (error : thrown)
    (operation : jsstring) (context : option ErrorContext)
    (now : Z) (stack' : option jsstring) : state :=
  logError this
    {| arg_error := error;
       arg_severity := Some MEDIUM;
       arg_category := Some VALIDATION;
       arg_context :=
         Some {| userId := userId (spread context);
                 action := Some operation;
                 component := component (spread context);
                 metadata := metadata (spread context) |};
       Date_now := now;
       new_Error_stack := stack' |}.





End ErrorHandler.

(** * Part I, continued: the callers *)

(** ** PromptEditor (components/prompts/PromptEditor.tsx): the values of
    the variables

    The component keeps the mapping [variableValues], a plain object; the
    functions below are the bodies of its effects and handlers that compute
    the next mapping, and the memoised [preview].  An entry is a string, or
    a member the second effect copied from [Object.prototype] under the
    member's own name, kept as its text (see [Object_prototype]). *)

Module PromptEditor.

(** [o[key] = value] for a plain object [o]: an assignment to
    [__proto__], when [o] has no entry of that name of its own, goes to the
    setter [o] inherits, which makes no entry: it ignores a string, and the
    one object written here, [Object.prototype], is the prototype [o] has
    already. *)
Definition Put (o : gmap jsstring jsstring) (key value : jsstring)
  : gmap jsstring jsstring :=
  if decide (key = js "__proto__" ∧ o !! key = None) then o
  else <[key := value]> o.

(** The first effect, for an existing prompt: every variable of its template
    starts with the empty string. *)
Definition initial_values (template : jsstring) : JS (gmap jsstring jsstring) :=
  vars ← extractVariables template;
  mret (foldl (λ initialValues v, Put initialValues v []) ∅ vars).

(** The updater of the second effect: from the variables [vars] of the new
    template and the previous mapping, a new mapping with
    [newValues[v] = prev[v] ?? ''] for each [v]. *)
Definition keep_values (vars : list jsstring)
    (prev : gmap jsstring jsstring) : gmap jsstring jsstring :=
  foldl (λ newValues v, Put newValues v ((Get prev v) ?? [])) ∅ vars.

(** The second effect, run when the template has changed. *)
Definition on_template_change (template : jsstring)
    (prev : gmap jsstring jsstring) : JS (gmap jsstring jsstring) :=
  vars ← extractVariables template;
  mret (keep_values vars prev).

(** [{ ...prev, [variable]: value }]: a computed key defines an entry of the
    new object itself, also for [__proto__]. *)
Definition handleVariableChange (variable value : jsstring)
    (prev : gmap jsstring jsstring) : gmap jsstring jsstring :=
  <[variable := value]> prev.

Definition preview (template : jsstring)
    (variableValues : gmap jsstring jsstring) : JS jsstring :=
  applyVariables template variableValues.

End PromptEditor.

(** ** domain/prompt.ts and store/promptReducer.ts

    [Category] is a union of four string literals; at run time a category
    is a string, and the import path accepts any string, so the field is a
    string here.  [generateId] (utils/uuid) and [Date.now] are inputs of a
    reducer call: [Date_now k] is the reading taken for the prompt at index
    [k] of the list ([UPDATE_PROMPT] reads the clock once for each prompt it
    rewrites), and [ADD_PROMPT] takes its one reading [Date_now 0]. *)

Module PromptReducer.

Definition CATEGORIES : list jsstring :=
  [js "Coding"; js "Writing"; js "Marketing"; js "Other"].

Record Prompt := {
  id : jsstring;
  title : jsstring;
  category : jsstring;
  template : jsstring;
  createdAt : Z;
  updatedAt : Z
}.

Record PromptFormData := {
  data_title : jsstring;
  data_category : jsstring;
  data_template : jsstring
}.

Record PromptState := {
  prompts : list Prompt;
  isLoading : bool
}.

Inductive PromptAction :=
  | LOAD_START
  | LOAD_SUCCESS (payload : list Prompt)
  | LOAD_ERROR
  | ADD_PROMPT (payload : PromptFormData)
  | UPDATE_PROMPT (payload_id : jsstring) (payload_data : PromptFormData)
  | DELETE_PROMPT (payload : jsstring)
  | IMPORT_PROMPTS (payload : list Prompt).

Record Env := {
  generateId : jsstring;
  Date_now : nat → Z
}.

(** [{ ...prompt, ...data, updatedAt: now }] *)
Definition with_data (prompt : Prompt) (data : PromptFormData) (now : Z) : Prompt :=
  {| id := id prompt;
     title := data_title data;
     category := data_category data;
     template := data_template data;
     createdAt := createdAt prompt;
     updatedAt := now |}.

Definition promptReducer (env : Env) (state : PromptState)
    (action : PromptAction) : PromptState :=
  match action with
  | LOAD_START => {| prompts := prompts state; isLoading := true |}
  | LOAD_SUCCESS payload => {| prompts := payload; isLoading := false |}
  | LOAD_ERROR => {| prompts := prompts state; isLoading := false |}
  | ADD_PROMPT payload =>
      let now := Date_now env 0 in
      let newPrompt :=
        {| id := generateId env;
           title := data_title payload;
           category := data_category payload;
           template := data_template payload;
           createdAt := now;
           updatedAt := now |} in
      {| prompts := prompts state ++ [newPrompt]; isLoading := isLoading state |}
  | UPDATE_PROMPT id' data =>
      {| prompts :=
           imap (λ k prompt,
                   if decide (id prompt = id') then with_data prompt data (Date_now env k)
                   else prompt) (prompts state);
         isLoading := isLoading state |}
  | DELETE_PROMPT payload =>
      {| prompts := filter (λ prompt, id prompt ≠ payload) (prompts state);
         isLoading := isLoading state |}
  | IMPORT_PROMPTS payload =>
      {| prompts := payload; isLoading := isLoading state |}
  end.

(** [initialState] of store/promptStore.tsx *)
Definition initialState : PromptState := {| prompts := []; isLoading := true |}.

(** The list [handleImport] of app/App.tsx hands to [importPrompts], from the
    prompts read from the file, the answer to the question "replace all
    existing prompts?" and the prompts of the state; [None] when it
    dispatches nothing ("All prompts from the file already exist."). *)
Definition handleImport_payload (state_prompts imported : list Prompt)
    (action : bool) : option (list Prompt) :=
  if action then Some imported
  else
    let existingIds : gset jsstring := list_to_set (id <$> state_prompts) in
    let newPrompts := filter (λ p, id p ∉ existingIds) imported in
    if decide (0 < length newPrompts) then Some (state_prompts ++ newPrompts)
    else None.

(** The actions that keep the ids of the list distinct: an added prompt must
    get an id no prompt has, a loaded or imported list must have distinct
    ids itself. *)
Definition keeps_ids_distinct (env : Env) (state : PromptState)
    (action : PromptAction) : Prop :=
  match action with
  | ADD_PROMPT _ => generateId env ∉ id <$> prompts state
  | LOAD_SUCCESS payload | IMPORT_PROMPTS payload => NoDup (id <$> payload)
  | _ => True
  end.

(** The actions that build on the list of the state. *)
Definition edits_list (action : PromptAction) : bool :=
  match action with
  | LOAD_SUCCESS _ | IMPORT_PROMPTS _ => false
  | _ => true
  end.

End PromptReducer.

(** ** utils/exportImport.ts

    A value [JSON.parse] can return is a [json]; numbers are integers (the
    time stamps are).  An object is the list of its entries; [get] reads a
    member the way [item.key] does for the keys used here (none is an array
    index or [length]), and a member that is not there is [undefined], here
    [None].  The functions log through the handler singleton, whose state
    is passed along; [now] is the reading of [Date.now()] in [logError] and
    [stack'] the stack of the [Error] that is created.  Values in a
    [metadata] record are kept in their string form. *)

Module ExportImport.
Import ErrorHandler.
Import PromptReducer.

#[local] Unset Elimination Schemes.
Inductive json :=
  | JNull
  | JBoolean (b : bool)
  | JNumber (n : Z)
  | JString (s : jsstring)
  | JArray (items : list json)
  | JObject (fields : list (jsstring * json)).
#[local] Set Elimination Schemes.

Definition typeof (v : json) : jsstring :=
  match v with
  | JNull => js "object"
  | JBoolean _ => js "boolean"
  | JNumber _ => js "number"
  | JString _ => js "string"
  | JArray _ | JObject _ => js "object"
  end.

(** ToBoolean *)
Definition truthy_value (v : json) : bool :=
  match v with
  | JNull => false
  | JBoolean b => b
  | JNumber n => negb (n =? 0)%Z
  | JString s => truthy s
  | JArray _ | JObject _ => true
  end.

Fixpoint assoc (fields : list (jsstring * json)) (key : jsstring) : option json :=
  match fields with
  | [] => None
  | (k, v) :: fields' => if decide (k = key) then Some v else assoc fields' key
  end.

(** [v.key] *)
Definition get (v : json) (key : jsstring) : option json :=
  match v with
  | JObject fields => assoc fields key
  | _ => None
  end.

(** [key in v], for an object or an array [v] *)
Definition key_in (key : jsstring) (v : json) : bool :=
  bool_decide (is_Some (get v key)).

(** [typeof v.key === type] *)
Definition member_typeof (v : json) (key type : jsstring) : bool :=
  match get v key with
  | Some m => bool_decide (typeof m = type)
  | None => bool_decide (js "undefined" = type)
  end.

Definition isArray (v : json) : bool :=
  match v with JArray _ => true | _ => false end.

(** The test of the loop of [validatePromptsArray]. *)
Definition is_prompt (item : json) : bool :=
  truthy_value item &&
  bool_decide (typeof item = js "object") &&
  key_in (js "id") item &&
  key_in (js "title") item &&
  key_in (js "category") item &&
  key_in (js "template") item &&
  key_in (js "createdAt") item &&
  key_in (js "updatedAt") item &&
  member_typeof item (js "id") (js "string") &&
  member_typeof item (js "title") (js "string") &&
  member_typeof item (js "category") (js "string") &&
  member_typeof item (js "template") (js "string") &&
  member_typeof item (js "createdAt") (js "number") &&
  member_typeof item (js "updatedAt") (js "number").

(** [new Error(message)] *)
Definition new_Error (message : jsstring) (stack' : option jsstring) : Error :=
  {| Error_message := message; Error_stack := stack' |}.

(** [{ metadata: { key: value } }] *)
Definition with_metadata (entries : list (jsstring * jsstring)) : option ErrorContext :=
  Some {| userId := None; action := None; component := None;
          metadata := Some entries |}.

Definition validatePromptsArray (prompts : list json)
    (now : Z) (stack' : option jsstring) (handler : state)
  : (Error + list json) * state :=
  let validPrompts := filter (λ item, is_prompt item = true) prompts in
  if decide (length validPrompts = 0) then
    let error := new_Error (js "No valid prompts found in file") stack' in
    (inl error,
     handleImportExportError handler (AnError error) (js "import")
       (with_metadata [(js "totalItems", js (pretty (length prompts)))])
       now stack')
  else (inr validPrompts, handler).

Definition validateImportData (data : json)
    (now : Z) (stack' : option jsstring) (handler : state)
  : (Error + list json) * state :=
  if negb (truthy_value data) || negb (bool_decide (typeof data = js "object")) then
    let error := new_Error (js "Invalid file format: expected JSON object") stack' in
    (inl error,
     handleImportExportError handler (AnError error) (js "import")
       (with_metadata [(js "dataType", typeof data)]) now stack')
  else
    match get data (js "prompts") with
    | Some (JArray prompts) => validatePromptsArray prompts now stack' handler
    | _ =>
        match data with
        | JArray prompts => validatePromptsArray prompts now stack' handler
        | _ =>
            let error :=
              new_Error
                (js "Invalid file format: expected prompts array or export object")
                stack' in
            (inl error,
             handleImportExportError handler (AnError error) (js "import") None
               now stack')
        end
    end.

(** A prompt of the state as [JSON.stringify] and [JSON.parse] carry it. *)
Definition to_json (p : Prompt) : json :=
  JObject [(js "id", JString (id p));
           (js "title", JString (title p));
           (js "category", JString (category p));
           (js "template", JString (template p));
           (js "createdAt", JNumber (createdAt p));
           (js "updatedAt", JNumber (updatedAt p))].

(** An item read as a [Prompt] ([item as Prompt]): its six members. *)
Definition as_Prompt (item : json) : option Prompt :=
  match get item (js "id"), get item (js "title"), get item (js "category"),
        get item (js "template"), get item (js "createdAt"),
        get item (js "updatedAt") with
  | Some (JString i), Some (JString t), Some (JString c), Some (JString tpl),
    Some (JNumber ca), Some (JNumber ua) =>
      Some {| id := i; title := t; category := c; template := tpl;
              createdAt := ca; updatedAt := ua |}
  | _, _, _, _, _, _ => None
  end.

(** The object [exportPrompts] builds. *)
Definition ExportData (prompts : list Prompt) (now : Z) : json :=
  JObject [(js "version", JString (js "1.0"));
           (js "exportedAt", JNumber now);
           (js "prompts", JArray (to_json <$> prompts))].

(** What the [FileReader] hands to [onload] in [e.target?.result]: the
    text, or something that is not a string, of which only the [typeof] is
    used. *)
Inductive reader_result :=
  | Text (text : jsstring)
  | NotText (type : jsstring).

(** How the promise of [readImportFile] is settled. *)
Inductive settled :=
  | resolve (prompts : list json)
  | reject (error : Error).

Section JSON.
(** [JSON.stringify(data, null, 2)] and [JSON.parse], which throws a
    SyntaxError or returns the value. *)
Variable JSON_stringify : json → jsstring.
Variable JSON_parse : jsstring → Error + json.

Definition exportPrompts (prompts : list Prompt) (now : Z) : jsstring :=
  JSON_stringify (ExportData prompts now).

(** [reader.onload] of [readImportFile].  [now] and [now'] are the first and
    the second reading of the clock. *)
Definition onload (file_name : jsstring) (file_size : nat)
    (result : reader_result) (now now' : Z) (stack' : option jsstring)
    (handler : state) : settled * state :=
  let file_metadata :=
    with_metadata [(js "fileName", file_name);
                   (js "fileSize", js (pretty file_size))] in
  match result with
  | NotText type =>
      let error := new_Error (js "Failed to read file") stack' in
      (reject error,
       handleImportExportError handler (AnError error) (js "import")
         (with_metadata [(js "fileType", type)]) now stack')
  | Text text =>
      match JSON_parse text with
      | inl error =>
          (reject error,
           handleImportExportError handler (AnError error) (js "import")
             file_metadata now stack')
      | inr data =>
          match validateImportData data now stack' handler with
          | (inr prompts, handler') => (resolve prompts, handler')
          | (inl error, handler') =>
              (reject error,
               handleImportExportError handler' (AnError error) (js "import")
                 file_metadata now' stack')
          end
      end
  end.
End JSON.

End ExportImport.

(** ** PromptEditor: [handleSave] *)

Module PromptEditorSave.
Import PromptReducer.

(** What [handleSave] does: it alerts, or calls [onSave]. *)
Inductive outcome :=
  | alert (message : jsstring)
  | onSave (data : PromptFormData).

Definition handleSave (title category template : jsstring) : outcome :=
  if negb (truthy (trim title)) then alert (js "Please enter a title")
  else if negb (truthy (trim template)) then alert (js "Please enter a template")
  else
    onSave {| data_title := trim title;
              data_category := category;
              data_template := trim template |}.

End PromptEditorSave.

(** ** components/prompts/Pagination.tsx and PromptList.tsx

    Page numbers, page sizes and lengths are JavaScript numbers that hold
    integers here; they are modelled in [Z]. *)

Module Pagination.
#[local] Open Scope Z_scope.

(** An entry of [pages: (number | string)[]]; the only string pushed is
    ['...']. *)
Inductive page :=
  | Number (n : Z)
  | Dots.

#[global] Instance page_eq_dec : EqDecision page.
Proof. solve_decision. Defined.

(** [for (let i = lo; i <= hi; i++) pages.push(i)] *)
Definition push_range (lo hi : Z) : list page :=
  Number <$> seqZ lo (hi - lo + 1).

Definition getPageNumbers (currentPage totalPages : Z) : list page :=
  let maxVisible := 5 in
  if totalPages <=? maxVisible then push_range 1 totalPages
  else if currentPage <=? 3 then
    push_range 1 4 ++ [Dots; Number totalPages]
  else if currentPage >=? totalPages - 2 then
    [Number 1; Dots] ++ push_range (totalPages - 3) totalPages
  else
    [Number 1; Dots] ++ push_range (currentPage - 1) (currentPage + 1)
      ++ [Dots; Number totalPages].


End Pagination.

Module PromptList.
#[local] Open Scope Z_scope.

(** [l.slice(start, end)] for integers [start] and [end]. *)
Definition slice_range {A} (start end_ : Z) (l : list A) : list A :=
  let len := Z.of_nat (length l) in
  let relative i := if i <? 0 then Z.max (len + i) 0 else Z.min i len in
  let k := relative start in
  let final := relative end_ in
  take (Z.to_nat (Z.max (final - k) 0)) (drop (Z.to_nat k) l).

Definition paginatedPrompts {A} (filteredPrompts : list A)
    (currentPage pageSize : Z) : list A :=
  let start := (currentPage - 1) * pageSize in
  let end_ := start + pageSize in
  slice_range start end_ filteredPrompts.

(** [Math.ceil(a / b)] for integers [a] and [b] with [0 < b]. *)
Definition Math_ceil_div (a b : Z) : Z := - ((- a) `div` b).

Definition totalPages {A} (filteredPrompts : list A) (pageSize : Z) : Z :=
  Math_ceil_div (Z.of_nat (length filteredPrompts)) pageSize.

End PromptList.

(** ** utils/storage.ts and the save effect of store/promptStore.tsx

    [localStorage] is a map from keys to texts; each access to it is
    carried out or throws (a SecurityError when the storage is refused, a
    QuotaExceededError when it is full). *)

Module Storage.
Import ErrorHandler.
Import PromptReducer.
Import ExportImport.

Definition STORAGE_KEY : jsstring := js "ai-prompt-manager-prompts".
Definition STORAGE_VERSION : jsstring := js "v1".

(** The object [savePrompts] builds. *)
Definition StorageSchema (prompts : list Prompt) : json :=
  JObject [(js "version", JString STORAGE_VERSION);
           (js "prompts", JArray (to_json <$> prompts))].

(** What [localStorage.setItem] does: it stores the text, or throws
    [error]; [DOMException_name] as for [handleStorageError]. *)
Inductive setItem_outcome :=
  | Stored
  | Throws (error : thrown) (DOMException_name : option jsstring).

(** [v === text] for a member [v] of parsed data ([None] for
    [undefined]) and a string [text]. *)
Definition strict_equal (v : option json) (text : jsstring) : bool :=
  match v with
  | Some (JString s) => bool_decide (s = text)
  | _ => false
  end.

(** What [localStorage.getItem] and [localStorage.removeItem] do: the
    access is carried out, or it throws [error]. *)
Inductive access :=
  | Permitted
  | Denied (error : thrown) (DOMException_name : option jsstring).

Section Environment.
(** [JSON.stringify] and [JSON.parse]; the text that stands for the value
    of [data.version] in the [metadata] of the model ([None] for
    [undefined]); and the TypeError that reading a property of [null]
    throws. *)
Variable JSON_stringify : json → jsstring.
Variable JSON_parse : jsstring → Error + json.
Variable as_metadata : option json → jsstring.
Variable TypeError_null : Error.

(** [loadPrompts()]: the prompts, the storage and the handler.  [now] and
    [stack1] are read by the first [handleStorageError] of the call, [now']
    and [stack2] by the second, if there is one. *)
Definition loadPrompts (getItem removeItem : access)
    (localStorage : gmap jsstring jsstring)
    (now now' : Z) (stack1 stack2 : option jsstring) (handler : state)
  : list json * gmap jsstring jsstring * state :=
  let catch error DOMException_name :=
    ([] : list json, localStorage,
     handleStorageError handler error DOMException_name (js "load") None
       now stack1) in
  match getItem with
  | Denied error DOMException_name => catch error DOMException_name
  | Permitted =>
      match localStorage !! STORAGE_KEY with
      | None => ([], localStorage, handler)
      | Some stored =>
          if negb (truthy stored) then ([], localStorage, handler)
          else
            match JSON_parse stored with
            | inl error => catch (AnError error) None
            | inr JNull => catch (AnError TypeError_null) None
            | inr data =>
                if negb (strict_equal (get data (js "version")) STORAGE_VERSION) then
                  let handler' :=
                    handleStorageError handler
                      (AnError (new_Error (js "Storage version mismatch") stack1))
                      None (js "load")
                      (with_metadata
                         [(js "expectedVersion", STORAGE_VERSION);
                          (js "foundVersion",
                           as_metadata (get data (js "version")))])
                      now stack1 in
                  match removeItem with
                  | Permitted => ([], delete STORAGE_KEY localStorage, handler')
                  | Denied error DOMException_name =>
                      ([], localStorage,
                       handleStorageError handler' error DOMException_name
                         (js "load") None now' stack2)
                  end
                else
                  match get data (js "prompts") with
                  | Some (JArray prompts) => (prompts, localStorage, handler)
                  | _ => ([], localStorage, handler)
                  end
            end
      end
  end.

(** [savePrompts(prompts)]: what it throws, if anything (with whether that
    is a DOMException), the storage and the handler. *)
Definition savePrompts (prompts : list Prompt) (setItem : setItem_outcome)
    (localStorage : gmap jsstring jsstring)
    (now : Z) (stack' : option jsstring) (handler : state)
  : option (thrown * option jsstring) * gmap jsstring jsstring * state :=
  let data := StorageSchema prompts in
  match setItem with
  | Stored =>
      (None, <[STORAGE_KEY := JSON_stringify data]> localStorage, handler)
  | Throws error DOMException_name =>
      let context :=
        with_metadata [(js "promptsCount", js (pretty (length prompts)))] in
      let handler' :=
        handleStorageError handler error DOMException_name (js "save") context
          now stack' in
      if decide (DOMException_name = Some (js "QuotaExceededError")) then
        (Some (AnError
                 (new_Error
                    (js "Storage quota exceeded. Please free up some space and try again.")
                    stack'), None),
         localStorage, handler')
      else (Some (error, DOMException_name), localStorage, handler')
  end.

(** The effect of [PromptProvider] that saves the prompts whenever they
    change.  [now'] and [stack''] are read when the effect logs. *)
Definition save_effect (state : PromptState) (setItem : setItem_outcome)
    (localStorage : gmap jsstring jsstring)
    (now now' : Z) (stack' stack'' : option jsstring) (handler : ErrorHandler.state)
  : gmap jsstring jsstring * ErrorHandler.state :=
  if isLoading state then (localStorage, handler)
  else
    match savePrompts (prompts state) setItem localStorage now stack' handler with
    | (None, localStorage', handler') => (localStorage', handler')
    | (Some (error, DOMException_name), localStorage', handler') =>
        (localStorage',
         handleStorageError handler' error DOMException_name (js "save")
           (Some {| userId := None; action := None;
                    component := Some (js "PromptProvider");
                    metadata :=
                      Some [(js "promptsCount",
                             js (pretty (length (prompts state))))] |})
           now' stack'')
    end.

End Environment.

End Storage.

(** * Part II: lemmas and theorems *)

(** ** Lemmas on strings and trimming *)

Lemma trimStart_whitespace (w s : jsstring) :
  forallb is_whitespace w = true → trimStart (w ++ s) = trimStart s.
Proof.
  induction w as [|c w IH]; simpl; [done|].
  intros [Hc Hw]%andb_prop. rewrite Hc. auto.
Qed.

Lemma trimStart_head (c : code_unit) (s : jsstring) :
  is_whitespace c = false → trimStart (c :: s) = c :: s.
Proof. intros H. simpl. by rewrite H. Qed.

Lemma forallb_reverse (w : jsstring) :
  forallb is_whitespace (reverse w) = forallb is_whitespace w.
Proof.
  induction w as [|c w IH]; [done|].
  rewrite reverse_cons, forallb_app, IH. simpl.
  rewrite andb_true_r. apply andb_comm.
Qed.

Lemma trimEnd_whitespace (w s : jsstring) :
  forallb is_whitespace w = true → trimEnd (s ++ w) = trimEnd s.
Proof.
  intros Hw. unfold trimEnd. rewrite reverse_app.
  rewrite trimStart_whitespace; [done|]. by rewrite forallb_reverse.
Qed.

Lemma trimEnd_last (c : code_unit) (s : jsstring) :
  is_whitespace c = false → trimEnd (s ++ [c]) = s ++ [c].
Proof.
  intros H. unfold trimEnd. rewrite reverse_app. simpl.
  rewrite H. change (c :: reverse s) with (reverse [c] ++ reverse s).
  by rewrite <- reverse_app, reverse_involutive.
Qed.

Lemma trim_whitespace (w : jsstring) :
  forallb is_whitespace w = true → trim w = [].
Proof.
  intros Hw. unfold trim.
  rewrite <- (app_nil_r w), trimStart_whitespace by done. done.
Qed.

(** ** Lemmas on the pattern and on the references *)

Lemma first_close_Some (s g post : jsstring) :
  first_close s = Some (g, post) → s = g ++ rbrace :: post ∧ rbrace ∉ g.
Proof.
  revert g post. induction s as [|c s IH]; intros g post; simpl; [done|].
  destruct (N.eqb_spec c rbrace) as [->|Hc].
  - intros [= <- <-]. split; [done|]. apply not_elem_of_nil.
  - destruct (first_close s) as [[g' post']|] eqn:E; simpl; [|done].
    intros [= <- <-]. destruct (IH _ _ eq_refl) as [-> Hg].
    split; [done|]. by apply not_elem_of_cons.
Qed.

Lemma first_close_None (s : jsstring) :
  first_close s = None ↔ rbrace ∉ s.
Proof.
  induction s as [|c s IH]; simpl.
  - split; [intros _; apply not_elem_of_nil|done].
  - destruct (N.eqb_spec c rbrace) as [->|Hc].
    + split; [done|]. intros []. left.
    + rewrite fmap_None, IH, elem_of_cons. intuition congruence.
Qed.

Lemma first_close_app (g post : jsstring) :
  rbrace ∉ g → first_close (g ++ rbrace :: post) = Some (g, post).
Proof.
  induction g as [|c g IH]; simpl; intros Hg.
  - done.
  - apply not_elem_of_cons in Hg as [Hc Hg].
    destruct (N.eqb_spec rbrace rbrace); [|done].
    destruct (N.eqb_spec c rbrace); [congruence|].
    by rewrite IH.
Qed.

Lemma class_run_first_close (s : jsstring) :
  first_close s =
    match class_run s with
    | (g, _ :: post) => Some (g, post)
    | (_, []) => None
    end.
Proof.
  induction s as [|c s IH]; simpl; [done|].
  destruct (N.eqb_spec c rbrace) as [->|Hc]; [done|].
  rewrite IH. by destruct (class_run s) as [g [|r post]].
Qed.

Lemma class_run_rest (s g r : jsstring) :
  class_run s = (g, r) → r = [] ∨ ∃ post, r = rbrace :: post.
Proof.
  revert g r. induction s as [|c s IH]; intros g r; simpl.
  - intros [= <- <-]. by left.
  - destruct (N.eqb_spec c rbrace) as [->|Hc].
    + intros [= <- <-]. right. by eexists.
    + destruct (class_run s) as [g' r'] eqn:E. intros [= <- <-]. by eapply IH.
Qed.

Lemma search_next_reference (s : jsstring) (i : nat) :
  search s i = (λ '(pre, g, _), result_at i pre g) <$> next_reference s.
Proof.
  revert i. induction s as [|c s IH]; intros i; simpl; [done|].
  assert (Hlater : search s (S i) =
    (λ '(pre, g, _), result_at i pre g)
      <$> ((λ '(pre, g, post), (c :: pre, g, post)) <$> next_reference s)).
  { rewrite IH. destruct (next_reference s) as [[[pre g] post]|]; simpl; [|done].
    unfold result_at. simpl. do 2 f_equal. lia. }
  destruct (N.eqb_spec c lbrace) as [->|Hc]; [|done].
  rewrite class_run_first_close.
  destruct (class_run s) as [g r] eqn:E.
  destruct (class_run_rest _ _ _ E) as [->|[post ->]].
  - by destruct g.
  - destruct g as [|c1 g]; [done|]. simpl. unfold result_at. simpl.
    do 2 f_equal. lia.
Qed.

Lemma next_reference_Some (s pre g post : jsstring) :
  next_reference s = Some (pre, g, post) →
  s = pre ++ lbrace :: g ++ rbrace :: post ∧ g ≠ [] ∧ rbrace ∉ g.
Proof.
  revert pre. induction s as [|c s IH]; intros pre; simpl; [done|].
  assert (Hlater : (λ '(pre, g, post), (c :: pre, g, post)) <$> next_reference s
                   = Some (pre, g, post) →
    c :: s = pre ++ lbrace :: g ++ rbrace :: post ∧ g ≠ [] ∧ rbrace ∉ g).
  { destruct (next_reference s) as [[[pre' g'] post']|]; simpl; [|done].
    intros [= <- <- <-]. destruct (IH _ eq_refl) as (-> & ? & ?). done. }
  destruct (N.eqb_spec c lbrace) as [->|Hc]; [|done].
  destruct (first_close s) as [[[|c1 g1] post1]|] eqn:E; try done.
  intros [= <- <- <-]. apply first_close_Some in E as [-> ?]. done.
Qed.

Lemma next_reference_shorter (s pre g post : jsstring) :
  next_reference s = Some (pre, g, post) → length post < length s.
Proof.
  intros (-> & _ & _)%next_reference_Some.
  rewrite length_app. simpl. rewrite length_app. simpl. lia.
Qed.

Lemma scan_fuel_enough (n : nat) (s : jsstring) :
  length s ≤ n → scan_fuel n s = scan s.
Proof.
  unfold scan. remember (length s) as k eqn:Hk.
  assert (Hle : length s ≤ k) by lia. clear Hk.
  revert n s Hle. induction k as [|k IH]; intros n s Hk Hn.
  - destruct s; [|simpl in Hk; lia]. by destruct n.
  - destruct n as [|n]; [lia|]. simpl.
    destruct (next_reference s) as [[[pre g] post]|] eqn:E; [|done].
    apply next_reference_shorter in E.
    rewrite (IH n post) by lia. done.
Qed.

Lemma scan_unfold (s : jsstring) :
  scan s =
    match next_reference s with
    | None => ([], s)
    | Some (pre, g, post) => ((pre, g) :: (scan post).1, (scan post).2)
    end.
Proof.
  unfold scan at 1. destruct s as [|c s]; [done|].
  change (length (c :: s)) with (S (length s)). cbn [scan_fuel].
  destruct (next_reference (c :: s)) as [[[pre g] post]|] eqn:E; [|done].
  apply next_reference_shorter in E. simpl in E.
  rewrite scan_fuel_enough by lia. by destruct (scan post).
Qed.

(** The literal texts and the references of [t], put back together with the
    braces, are [t]. *)
Lemma scan_reassemble (t : jsstring) :
  reassemble (scan t).1 (scan t).2 = t.
Proof.
  remember (length t) as k eqn:Hk.
  assert (Hle : length t ≤ k) by lia. clear Hk.
  revert t Hle. induction k as [|k IH]; intros t Hk.
  - by destruct t; [|simpl in Hk; lia].
  - rewrite scan_unfold.
    destruct (next_reference t) as [[[pre g] post]|] eqn:E; [|done].
    pose proof (next_reference_shorter _ _ _ _ E).
    apply next_reference_Some in E as (-> & _ & _).
    simpl. rewrite IH by lia. done.
Qed.

(** ** Running the matching loop *)

Ltac js_unfold :=
  unfold mbind, JS_bind, mret, JS_ret, throw, get_lastIndex, set_lastIndex,
    new_RegExp.

Lemma drop_after {A} (l a b : list A) (i : nat) :
  drop i l = a ++ b → drop (i + length a) l = b.
Proof.
  intros H. rewrite <- drop_drop, H. by rewrite drop_app_length.
Qed.

Lemma next_reference_text (s pre g post : jsstring) :
  next_reference s = Some (pre, g, post) →
  s = pre ++ matched (result_at 0 pre g) ++ post.
Proof.
  intros (-> & _ & _)%next_reference_Some. simpl.
  by rewrite <- app_assoc.
Qed.

Lemma RegExpExec_run (r : loc) (str : jsstring) (i : nat) (h : Heap) :
  h !! r = Some (mkRegExp i) → i ≤ length str →
  RegExpExec r str h =
    match next_reference (drop i str) with
    | None => (Normal None, <[r := mkRegExp 0]> h)
    | Some (pre, g, _) =>
        let m := result_at i pre g in
        (Normal (Some m), <[r := mkRegExp (index m + length (matched m))]> h)
    end.
Proof.
  intros Hr Hi. unfold RegExpExec. js_unfold. rewrite Hr. simpl.
  destruct (decide (length str < i)) as [?|_]; [lia|].
  rewrite search_next_reference.
  destruct (next_reference (drop i str)) as [[[pre g] post]|]; simpl;
    by rewrite Hr.
Qed.

Lemma exec_all_run (fuel : nat) (r : loc) (str : jsstring) (i : nat) (h : Heap) :
  h !! r = Some (mkRegExp i) → i ≤ length str → length str - i < fuel →
  exec_all fuel r str h =
    (Normal (results_of i (scan (drop i str)).1), <[r := mkRegExp 0]> h).
Proof.
  revert i h. induction fuel as [|fuel IH]; intros i h Hr Hi Hfuel; [lia|].
  cbn [exec_all]. unfold mbind at 1, JS_bind at 1.
  rewrite (RegExpExec_run _ _ _ _ Hr Hi), scan_unfold.
  destruct (next_reference (drop i str)) as [[[pre g] post]|] eqn:E; [|done].
  apply next_reference_text in E. cbn zeta.
  set (m := result_at i pre g).
  assert (Hm : matched m = matched (result_at 0 pre g)) by done.
  rewrite <- Hm in E.
  assert (Hpost : drop (index m + length (matched m)) str = post).
  { apply drop_after. by apply drop_after. }
  assert (Hlen : index m + length (matched m) ≤ length str).
  { apply (f_equal length) in E.
    rewrite length_drop, !length_app in E. subst m. simpl in *. lia. }
  assert (Hlt : i < index m + length (matched m)).
  { subst m. simpl. lia. }
  assert (Ht : truthy (matched m) = true) by done.
  unfold mbind, JS_bind. rewrite Ht. unfold mret at 1, JS_ret at 1.
  rewrite (IH (index m + length (matched m))).
  - rewrite Hpost, list_insert_insert_eq. done.
  - apply list_lookup_insert_eq. by eapply lookup_lt_Some.
  - done.
  - lia.
Qed.

Lemma matchAll_run (str : jsstring) (r : loc) (h : Heap) :
  h !! r = Some (mkRegExp 0) →
  matchAll str r h =
    (Normal (results_of 0 (scan str).1), h ++ [mkRegExp 0]).
Proof.
  intros Hr. unfold matchAll. js_unfold. rewrite Hr.
  pose proof (list_lookup_middle h [] (mkRegExp 0) (length h) eq_refl) as Hnew.
  rewrite Hnew. cbn [lastIndex]. rewrite (list_insert_id _ _ _ Hnew).
  rewrite (exec_all_run _ _ _ 0); [|done|lia|lia].
  by rewrite (list_insert_id _ _ _ Hnew).
Qed.

Section replace.
Context (f : jsstring → option jsstring → JS jsstring).
Context (fv : jsstring → jsstring).
Hypothesis f_run : ∀ whole g h, f whole (Some g) h = (Normal (fv g), h).

Lemma replace_results_run (str : jsstring) (refs : list (jsstring * jsstring))
    (tail acc : jsstring) (i : nat) (h : Heap) :
  drop i str = reassemble refs tail →
  replace_results str (results_of i refs) f i acc h =
    (Normal (acc ++ render fv refs tail), h).
Proof using f_run.
  revert i acc. induction refs as [|[pre g] refs IH]; intros i acc Hdrop.
  - simpl in *. by rewrite Hdrop.
  - cbn [results_of replace_results]. unfold mbind, JS_bind.
    change (match_get (result_at i pre g) 1) with (Some g).
    rewrite f_run.
    set (m := result_at i pre g).
    destruct (decide (i ≤ index m)) as [_|Hn]; [|subst m; simpl in Hn; lia].
    simpl in Hdrop.
    rewrite IH.
    + replace (index m - i) with (length pre) by (subst m; simpl; lia).
      rewrite Hdrop, take_app_length. simpl.
      by rewrite <- !app_assoc.
    + change (pre ++ lbrace :: g ++ rbrace :: reassemble refs tail)
        with (pre ++ (lbrace :: g ++ rbrace :: reassemble refs tail)) in Hdrop.
      apply drop_after in Hdrop.
      replace (lbrace :: g ++ rbrace :: reassemble refs tail)
        with (matched m ++ reassemble refs tail) in Hdrop
        by (subst m; simpl; by rewrite <- app_assoc).
      by apply drop_after in Hdrop.
Qed.

Lemma replace_run (str : jsstring) (r : loc) (h : Heap) :
  r < length h →
  replace str r f h =
    (Normal (render fv (scan str).1 (scan str).2), <[r := mkRegExp 0]> h).
Proof using f_run.
  intros [o Hr]%lookup_lt_is_Some. unfold replace.
  unfold mbind at 1, JS_bind at 1. unfold set_lastIndex at 1. rewrite Hr.
  unfold mbind at 1, JS_bind at 1.
  rewrite (exec_all_run _ _ _ 0); cycle 1.
  - apply list_lookup_insert_eq. by eapply lookup_lt_Some.
  - lia.
  - lia.
  - rewrite list_insert_insert_eq.
    rewrite (replace_results_run _ _ (scan str).2); [done|].
    by rewrite scan_reassemble.
Qed.
End replace.

(** ** First occurrences and the Set of names *)

Lemma first_index_lookup (x : jsstring) (l : list jsstring) :
  x ∈ l →
  l !! first_index x l = Some x ∧ ∀ j, j < first_index x l → l !! j ≠ Some x.
Proof.
  induction l as [|y l IH]; [by intros ?%elem_of_nil|].
  intros Hx. simpl. destruct (decide (y = x)) as [->|Hne].
  - split; [done|]. intros j ?. lia.
  - apply elem_of_cons in Hx as [->|Hx]; [done|].
    destruct (IH Hx) as [Hl Hj]. split; [done|].
    intros [|j] ?; simpl; [congruence|]. apply Hj. lia.
Qed.

Lemma first_occurrences_filter (P : jsstring → Prop) `{!∀ x, Decision (P x)}
    (l : list jsstring) :
  filter P (first_occurrences l) = first_occurrences (filter P l).
Proof.
  induction l as [|x l IH]; [done|]. simpl.
  destruct (decide (P x)) as [HP|HP].
  - rewrite !filter_cons_True by done. simpl. rewrite <- IH.
    rewrite !list_filter_filter. f_equal. apply list_filter_iff. tauto.
  - rewrite !filter_cons_False by done. rewrite <- IH.
    apply list_filter_filter_l. intros y Hy ->. done.
Qed.

Lemma first_occurrences_elem_of (x : jsstring) (l : list jsstring) :
  x ∈ first_occurrences l ↔ x ∈ l.
Proof.
  induction l as [|y l IH]; [done|]. simpl.
  rewrite !elem_of_cons, list_elem_of_filter, IH.
  destruct (decide (x = y)); tauto.
Qed.

Lemma first_occurrences_NoDup (l : list jsstring) : NoDup (first_occurrences l).
Proof.
  induction l as [|y l IH]; simpl; constructor.
  - rewrite list_elem_of_filter. tauto.
  - by apply NoDup_filter.
Qed.

Lemma sublist_order {A} (k1 k2 : list A) (i j : nat) (x y : A) :
  k1 `sublist_of` k2 → k1 !! i = Some x → k1 !! j = Some y → i < j →
  ∃ i' j', i' < j' ∧ k2 !! i' = Some x ∧ k2 !! j' = Some y.
Proof.
  intros Hsub. revert i j.
  induction Hsub as [|a k1 k2 Hsub IH|a k1 k2 Hsub IH]; intros i j Hi Hj Hij.
  - done.
  - destruct j as [|j]; [lia|]. destruct i as [|i]; simpl in *.
    + assert (y ∈ k2) as [j' Hj']%list_elem_of_lookup_1.
      { eapply sublist_subseteq; [done|]. by eapply list_elem_of_lookup_2. }
      exists 0, (S j'). split; [lia|done].
    + destruct (IH i j Hi Hj) as (i' & j' & ? & ? & ?); [lia|].
      exists (S i'), (S j'). split; [lia|done].
  - destruct (IH i j Hi Hj Hij) as (i' & j' & ? & ? & ?).
    exists (S i'), (S j'). split; [lia|done].
Qed.

Lemma first_occurrences_order (l : list jsstring) (i j : nat) (x y : jsstring) :
  first_occurrences l !! i = Some x → first_occurrences l !! j = Some y →
  i < j → first_index x l < first_index y l.
Proof.
  revert i j. induction l as [|a l IH]; intros i j Hi Hj Hij; [done|].
  simpl in Hi, Hj. destruct j as [|j]; [lia|]. simpl in Hj.
  assert (Hy : a ≠ y).
  { apply list_elem_of_lookup_2, list_elem_of_filter in Hj. by intros ->; tauto. }
  simpl. rewrite (decide_False _ _ Hy). destruct i as [|i]; simpl in Hi.
  - injection Hi as ->. rewrite decide_True by done. lia.
  - assert (Hx : a ≠ x).
    { apply list_elem_of_lookup_2, list_elem_of_filter in Hi. by intros ->; tauto. }
    rewrite (decide_False _ _ Hx).
    destruct (sublist_order (filter (λ y, y ≠ a) (first_occurrences l))
                (first_occurrences l) i j x y) as (i' & j' & Hlt & Hi' & Hj');
      [apply sublist_filter; apply _|done|done|lia|].
    specialize (IH i' j' Hi' Hj' Hlt). lia.
Qed.

Lemma foldl_Set_add (st l : list jsstring) :
  foldl (λ s x, Set_add x s) st l
  = st ++ first_occurrences (filter (λ x, x ∉ st) l).
Proof.
  revert st. induction l as [|x l IH]; intros st; simpl.
  - by rewrite app_nil_r.
  - unfold Set_add at 2. destruct (decide (x ∈ st)) as [Hx|Hx].
    + rewrite filter_cons_False by tauto. apply IH.
    + rewrite filter_cons_True by done. rewrite IH. simpl.
      rewrite <- app_assoc. simpl. do 2 f_equal.
      rewrite first_occurrences_filter, list_filter_filter.
      f_equal. apply list_filter_iff. intros y.
      rewrite elem_of_app, list_elem_of_singleton. tauto.
Qed.

Lemma foldl_add_name (st l : list jsstring) :
  foldl add_name st l = foldl (λ s x, Set_add x s) st (filter (λ x, x ≠ []) l).
Proof.
  revert st. induction l as [|x l IH]; intros st; [done|]. simpl.
  destruct x as [|c x].
  - rewrite filter_cons_False by tauto. apply IH.
  - rewrite filter_cons_True by done. apply IH.
Qed.

Lemma foldl_add_name_new (l : list jsstring) :
  foldl add_name Set_new l = first_occurrences (filter (λ x, x ≠ []) l).
Proof.
  rewrite foldl_add_name, foldl_Set_add. simpl. f_equal.
  apply list_filter_filter_r. intros x _. apply not_elem_of_nil.
Qed.

Lemma extract_loop_run (refs : list (jsstring * jsstring)) (i : nat)
    (st : JSSet) (h : Heap) :
  for_of (results_of i refs) (λ variables match_,
      variableName ← call_trim (match_get match_ 1);
      if truthy variableName then mret (Set_add variableName variables)
      else mret variables) st h
  = (Normal (foldl add_name st (trim <$> refs.*2)), h).
Proof.
  revert i st. induction refs as [|[pre g] refs IH]; intros i st; [done|].
  cbn [results_of for_of]. unfold mbind at 1, JS_bind at 1.
  change (match_get (result_at i pre g) 1) with (Some g).
  change (call_trim (Some g)) with (mret (M:=JS) (trim g)).
  unfold mbind at 1, JS_bind at 1, mret at 1, JS_ret at 1.
  assert (Hstep : foldl add_name st (trim <$> ((pre, g) :: refs).*2)
                  = foldl add_name (add_name st (trim g)) (trim <$> refs.*2))
    by done.
  rewrite Hstep. unfold add_name at 2.
  destruct (truthy (trim g)); unfold mret at 1, JS_ret at 1; apply IH.
Qed.

(** ** What the two functions compute *)

Lemma extractVariables_run (template : jsstring) (h : Heap) :
  extractVariables template h
  = (Normal (first_occurrences (reference_names template)),
     h ++ [mkRegExp 0; mkRegExp 0]).
Proof.
  unfold extractVariables. unfold mbind at 1, JS_bind at 1, new_RegExp at 1.
  unfold mbind at 1, JS_bind at 1.
  rewrite matchAll_run by (by apply list_lookup_middle).
  unfold mbind at 1, JS_bind at 1. rewrite extract_loop_run.
  unfold mret, JS_ret, Array_from. rewrite foldl_add_name_new.
  by rewrite <- app_assoc.
Qed.

Lemma applyVariables_run (template : jsstring)
    (values : gmap jsstring jsstring) (h : Heap) :
  applyVariables template values h
  = (Normal (render (value_for values) (scan template).1 (scan template).2),
     h ++ [mkRegExp 0]).
Proof.
  unfold applyVariables. unfold mbind at 1, JS_bind at 1, new_RegExp at 1.
  unfold mbind at 1, JS_bind at 1.
  rewrite (replace_run _ (value_for values)).
  - unfold mret, JS_ret. f_equal.
    apply list_insert_id. by apply list_lookup_middle.
  - done.
  - rewrite length_app. simpl. lia.
Qed.

(** ** How the references of a text follow from its parts *)

(** Induction along the references of a text. *)
Lemma scan_ind (P : jsstring → Prop) :
  (∀ s, next_reference s = None → P s) →
  (∀ s pre g post, next_reference s = Some (pre, g, post) → P post → P s) →
  ∀ s, P s.
Proof.
  intros Hnone Hsome s. remember (length s) as k eqn:Hk.
  assert (Hle : length s ≤ k) by lia. clear Hk.
  revert s Hle. induction k as [|k IH]; intros s Hk.
  - destruct s; [|simpl in Hk; lia]. by apply Hnone.
  - destruct (next_reference s) as [[[pre g] post]|] eqn:E; [|by apply Hnone].
    eapply Hsome; [done|]. apply IH.
    apply next_reference_shorter in E. lia.
Qed.

Lemma next_reference_no_close (s : jsstring) :
  rbrace ∉ s → next_reference s = None.
Proof.
  induction s as [|c s IH]; [done|].
  intros [_ Hs]%not_elem_of_cons. simpl.
  rewrite (proj2 (first_close_None s) Hs), (IH Hs). simpl.
  by destruct (c =? lbrace)%N.
Qed.

Lemma next_reference_skip (pre t : jsstring) :
  lbrace ∉ pre →
  next_reference (pre ++ t)
  = (λ '(p, g, post), (pre ++ p, g, post)) <$> next_reference t.
Proof.
  induction pre as [|c pre IH]; simpl.
  - intros _. by destruct (next_reference t) as [[[? ?] ?]|].
  - intros [Hc Hpre]%not_elem_of_cons.
    destruct (N.eqb_spec c lbrace) as [->|_]; [done|].
    rewrite (IH Hpre). by destruct (next_reference t) as [[[? ?] ?]|].
Qed.

Lemma next_reference_head (a rest : jsstring) :
  a ≠ [] → rbrace ∉ a →
  next_reference (lbrace :: a ++ rbrace :: rest) = Some ([], a, rest).
Proof.
  intros Ha Hr. cbn [next_reference]. rewrite N.eqb_refl.
  rewrite (first_close_app _ _ Hr). by destruct a.
Qed.

Lemma next_reference_empty_braces (t : jsstring) :
  next_reference (lbrace :: rbrace :: t)
  = (λ '(p, g, post), (lbrace :: rbrace :: p, g, post)) <$> next_reference t.
Proof.
  cbn [next_reference first_close]. rewrite !N.eqb_refl.
  change (rbrace =? lbrace)%N with false. cbn iota.
  by destruct (next_reference t) as [[[? ?] ?]|].
Qed.

Lemma first_close_app_tail (t tail : jsstring) :
  rbrace ∉ tail →
  first_close (t ++ tail) = (λ '(g, post), (g, post ++ tail)) <$> first_close t.
Proof.
  intros Htail. induction t as [|c t IH]; simpl.
  - by apply first_close_None.
  - destruct (c =? rbrace)%N; [done|]. rewrite IH.
    by destruct (first_close t) as [[? ?]|].
Qed.

Lemma next_reference_app_tail (t tail : jsstring) :
  rbrace ∉ tail →
  next_reference (t ++ tail)
  = (λ '(p, g, post), (p, g, post ++ tail)) <$> next_reference t.
Proof.
  intros Htail. induction t as [|c t IH]; simpl.
  - by apply next_reference_no_close.
  - rewrite IH, first_close_app_tail by done.
    destruct (c =? lbrace)%N.
    + destruct (first_close t) as [[[|c1 g] post]|]; simpl; try done;
        by destruct (next_reference t) as [[[? ?] ?]|].
    + by destruct (next_reference t) as [[[? ?] ?]|].
Qed.

Lemma scan_app_tail (t tail : jsstring) :
  rbrace ∉ tail → scan (t ++ tail) = ((scan t).1, (scan t).2 ++ tail).
Proof.
  intros Htail. induction t as [s E|s pre g post E IH] using scan_ind.
  - rewrite (scan_unfold s), (scan_unfold (s ++ tail)).
    by rewrite next_reference_app_tail, E.
  - rewrite (scan_unfold s), (scan_unfold (s ++ tail)).
    rewrite next_reference_app_tail, E by done. simpl. by rewrite IH.
Qed.

Lemma scan_reference (pre a rest : jsstring) :
  lbrace ∉ pre → a ≠ [] → rbrace ∉ a →
  scan (pre ++ lbrace :: a ++ rbrace :: rest)
  = ((pre, a) :: (scan rest).1, (scan rest).2).
Proof.
  intros Hpre Ha Hr. rewrite scan_unfold.
  rewrite next_reference_skip, next_reference_head by done. simpl.
  by rewrite app_nil_r.
Qed.

Lemma interiors_skip (pre t : jsstring) :
  lbrace ∉ pre → interiors (pre ++ t) = interiors t.
Proof.
  intros Hpre. unfold interiors.
  rewrite (scan_unfold (pre ++ t)), (scan_unfold t), next_reference_skip by done.
  by destruct (next_reference t) as [[[? ?] ?]|].
Qed.

Lemma render_skip (f : jsstring → jsstring) (pre t : jsstring) :
  lbrace ∉ pre →
  render f (scan (pre ++ t)).1 (scan (pre ++ t)).2
  = pre ++ render f (scan t).1 (scan t).2.
Proof.
  intros Hpre.
  rewrite (scan_unfold (pre ++ t)), (scan_unfold t), next_reference_skip by done.
  destruct (next_reference t) as [[[? ?] ?]|]; simpl; [|done].
  by rewrite <- app_assoc.
Qed.

Lemma interiors_empty_braces (t : jsstring) :
  interiors (lbrace :: rbrace :: t) = interiors t.
Proof.
  unfold interiors.
  rewrite (scan_unfold (_ :: _ :: t)), (scan_unfold t), next_reference_empty_braces.
  by destruct (next_reference t) as [[[? ?] ?]|].
Qed.

Lemma interiors_reference (pre a rest : jsstring) :
  lbrace ∉ pre → a ≠ [] → rbrace ∉ a →
  interiors (pre ++ lbrace :: a ++ rbrace :: rest) = a :: interiors rest.
Proof. intros. unfold interiors. by rewrite scan_reference. Qed.

(** In the literal text before a reference every [{] is directly followed
    by a [}]. *)
Lemma next_reference_literal (s pre g post : jsstring) :
  next_reference s = Some (pre, g, post) → empty_braces_only pre.
Proof.
  revert pre. induction s as [|c s IH]; intros pre; simpl; [done|].
  assert (Hlater : ∀ pre', next_reference s = Some (pre', g, post) →
    c ≠ lbrace ∨ (∃ s', s = rbrace :: s') →
    empty_braces_only (c :: pre')).
  { intros pre' E Hc [|i]; simpl; [|by apply (IH _ E)].
    intros [= ->]. destruct Hc as [|[s' ->]]; [done|].
    apply next_reference_Some in E as (E & _ & _).
    destruct pre' as [|d pre'']; [done|]. by injection E as <- _. }
  destruct (N.eqb_spec c lbrace) as [->|Hc].
  - destruct (first_close s) as [[[|c1 g1] post1]|] eqn:Ec.
    + destruct (next_reference s) as [[[pre' g'] post']|] eqn:E; simpl; [|done].
      intros [= <- <- <-]. apply Hlater; [done|]. right.
      apply first_close_Some in Ec as [-> _]. by eexists.
    + by intros [= <- <- <-].
    + apply first_close_None in Ec. by rewrite next_reference_no_close.
  - destruct (next_reference s) as [[[pre' g'] post']|] eqn:E; simpl; [|done].
    intros [= <- <- <-]. apply Hlater; [done|]. by left.
Qed.

(** [scan] splits a text into references and literal text that holds no
    reference. *)
Lemma scan_wellformed (t : jsstring) :
  Forall (λ '(pre, g), empty_braces_only pre ∧ g ≠ [] ∧ rbrace ∉ g)
    (scan t).1 ∧
  next_reference (scan t).2 = None.
Proof.
  induction t as [s E|s pre g post E [IH1 IH2]] using scan_ind.
  - by rewrite scan_unfold, E.
  - rewrite scan_unfold, E. simpl. split; [|done].
    constructor; [|done]. split; [by eapply next_reference_literal|].
    by apply next_reference_Some in E as (_ & ? & ?).
Qed.

(** ** Names and substitution, part by part *)

Lemma reference_names_skip (pre t : jsstring) :
  lbrace ∉ pre → reference_names (pre ++ t) = reference_names t.
Proof. intros. unfold reference_names. by rewrite interiors_skip. Qed.

Lemma reference_names_reference (a rest : jsstring) :
  a ≠ [] → rbrace ∉ a →
  reference_names (lbrace :: a ++ rbrace :: rest)
  = if decide (trim a = []) then reference_names rest
    else trim a :: reference_names rest.
Proof.
  intros Ha Hr. unfold reference_names.
  pose proof (interiors_reference [] a rest (not_elem_of_nil _) Ha Hr) as Hi.
  simpl in Hi. rewrite Hi, fmap_cons. destruct (decide (trim a = [])) as [E|E].
  - by rewrite filter_cons_False by tauto.
  - by rewrite filter_cons_True by done.
Qed.

Lemma reference_names_blank (w rest : jsstring) :
  forallb is_whitespace w = true →
  reference_names (lbrace :: w ++ rbrace :: rest) = reference_names rest.
Proof.
  intros Hw. destruct w as [|c w].
  - unfold reference_names. by rewrite app_nil_l, (interiors_empty_braces rest).
  - rewrite reference_names_reference; [|done|].
    + by rewrite decide_True by (by apply trim_whitespace).
    + intros Hin. rewrite forallb_forall in Hw.
      apply list_elem_of_In, Hw in Hin. done.
Qed.

Lemma reference_names_nonempty (t : jsstring) : [] ∉ reference_names t.
Proof. unfold reference_names. rewrite list_elem_of_filter. tauto. Qed.

Lemma applyVariables_returns (template : jsstring)
    (values : gmap jsstring jsstring) (h : Heap) (out : jsstring) :
  returns (applyVariables template values) h out
  ↔ out = substitute (value_for values) template.
Proof.
  unfold returns, substitute. rewrite applyVariables_run. cbn [fst].
  split; [by intros [= <-]|by intros ->].
Qed.

Lemma extractVariables_returns (template : jsstring) (h : Heap)
    (vars : list jsstring) :
  returns (extractVariables template) h vars
  ↔ vars = first_occurrences (reference_names template).
Proof.
  unfold returns. rewrite extractVariables_run. cbn [fst].
  split; [by intros [= <-]|by intros ->].
Qed.

Lemma substitute_skip (f : jsstring → jsstring) (pre t : jsstring) :
  lbrace ∉ pre → substitute f (pre ++ t) = pre ++ substitute f t.
Proof. apply render_skip. Qed.

Lemma substitute_app_tail (f : jsstring → jsstring) (t tail : jsstring) :
  rbrace ∉ tail → substitute f (t ++ tail) = substitute f t ++ tail.
Proof.
  intros Htail. unfold substitute. rewrite scan_app_tail by done. simpl.
  induction (scan t).1 as [|[pre g] refs IH]; simpl; [done|].
  by rewrite IH, <- !app_assoc.
Qed.

Lemma substitute_reference (f : jsstring → jsstring) (a rest : jsstring) :
  a ≠ [] → rbrace ∉ a →
  substitute f (lbrace :: a ++ rbrace :: rest) = f a ++ substitute f rest.
Proof.
  intros Ha Hr. unfold substitute.
  pose proof (scan_reference [] a rest (not_elem_of_nil _) Ha Hr) as Hs.
  simpl in Hs. by rewrite Hs.
Qed.

Lemma substitute_empty_braces (f : jsstring → jsstring) (t : jsstring) :
  substitute f (lbrace :: rbrace :: t) = lbrace :: rbrace :: substitute f t.
Proof.
  unfold substitute.
  rewrite (scan_unfold (_ :: _ :: t)), (scan_unfold t), next_reference_empty_braces.
  by destruct (next_reference t) as [[[? ?] ?]|].
Qed.

Lemma reference_names_app_tail (t tail : jsstring) :
  rbrace ∉ tail → reference_names (t ++ tail) = reference_names t.
Proof.
  intros. unfold reference_names, interiors. by rewrite scan_app_tail.
Qed.

Lemma whitespace_no_rbrace (w : jsstring) :
  forallb is_whitespace w = true → rbrace ∉ w.
Proof.
  intros Hw Hin. rewrite forallb_forall in Hw.
  by apply list_elem_of_In, Hw in Hin.
Qed.

Lemma trim_padded (n w1 w2 : jsstring) :
  no_outer_whitespace n = true →
  forallb is_whitespace w1 = true → forallb is_whitespace w2 = true →
  trim (w1 ++ n ++ w2) = n.
Proof.
  unfold no_outer_whitespace. intros Hn Hw1 Hw2.
  destruct n as [|a n]; [done|].
  destruct (reverse (a :: n)) as [|b r] eqn:Er; [done|].
  apply andb_prop in Hn as [Ha%negb_true_iff Hb%negb_true_iff].
  unfold trim. rewrite trimStart_whitespace by done.
  change ((a :: n) ++ w2) with (a :: (n ++ w2)).
  rewrite trimStart_head by done.
  change (a :: (n ++ w2)) with ((a :: n) ++ w2).
  rewrite trimEnd_whitespace by done.
  rewrite <- (reverse_involutive (a :: n)), Er, reverse_cons.
  by apply trimEnd_last.
Qed.

Lemma trim_fixed (n : jsstring) : no_outer_whitespace n = true → trim n = n.
Proof.
  intros Hn. pose proof (trim_padded n [] [] Hn eq_refl eq_refl) as H.
  by rewrite app_nil_r in H.
Qed.

(** ** Counting occurrences *)

Lemma starts_with_app (w r : jsstring) : starts_with w (w ++ r) = true.
Proof. induction w as [|a w IH]; [done|]. simpl. by rewrite N.eqb_refl. Qed.

Lemma starts_with_lookup (a b s : jsstring) (c : code_unit) :
  starts_with (a ++ c :: b) s = true → s !! length a = Some c.
Proof.
  revert s. induction a as [|a0 a IH]; intros [|d s]; simpl; try done.
  - intros [Hc _]%andb_prop. by apply N.eqb_eq in Hc as ->.
  - intros [_ Hs]%andb_prop. by apply IH.
Qed.

Lemma occurrences_suffix (w p r : jsstring) :
  occurrences w r ≤ occurrences w (p ++ r).
Proof. induction p as [|c p IH]; simpl; lia. Qed.

Lemma occurrences_self (w r : jsstring) :
  w ≠ [] → S (occurrences w r) ≤ occurrences w (w ++ r).
Proof.
  destruct w as [|c w]; [done|]. intros _.
  change (occurrences (c :: w) ((c :: w) ++ r))
    with ((if starts_with (c :: w) ((c :: w) ++ r) then 1 else 0)
          + occurrences (c :: w) (w ++ r)).
  rewrite starts_with_app.
  pose proof (occurrences_suffix (c :: w) w r). lia.
Qed.

Lemma count_app (c : code_unit) (s1 s2 : jsstring) :
  count c (s1 ++ s2) = count c s1 + count c s2.
Proof. unfold count. by rewrite filter_app, length_app. Qed.

Lemma count_absent (c : code_unit) (s : jsstring) : c ∉ s → count c s = 0.
Proof.
  intros Hc. unfold count. induction s as [|d s IH]; [done|].
  apply not_elem_of_cons in Hc as [Hd Hs].
  rewrite filter_cons_False by congruence. by apply IH.
Qed.

Lemma count_drop_S (c : code_unit) (s : jsstring) (k : nat) :
  count c (drop (S k) s) ≤ count c (drop k s).
Proof.
  destruct (s !! k) as [d|] eqn:E.
  - rewrite (drop_S _ _ _ E).
    change (d :: drop (S k) s) with ([d] ++ drop (S k) s).
    rewrite count_app. lia.
  - apply lookup_ge_None in E. rewrite !drop_ge by lia. done.
Qed.

Lemma count_drop (c : code_unit) (s : jsstring) (k : nat) :
  count c (drop k s) ≤ count c s.
Proof.
  rewrite <- (take_drop k s) at 2. rewrite count_app. lia.
Qed.

Lemma occurrences_le_count (a b s : jsstring) (c : code_unit) :
  occurrences (a ++ c :: b) s ≤ count c (drop (length a) s).
Proof.
  induction s as [|d s IH]; [simpl; lia|].
  cbn [occurrences].
  destruct (starts_with (a ++ c :: b) (d :: s)) eqn:E.
  - apply starts_with_lookup in E. rewrite (drop_S _ _ _ E).
    change (c :: drop (S (length a)) (d :: s))
      with ([c] ++ drop (S (length a)) (d :: s)).
    rewrite count_app. unfold count at 1. rewrite filter_cons_True by done.
    simpl. pose proof (count_drop_S c s (length a)).
    destruct a; simpl in *; lia.
  - pose proof (count_drop_S c (d :: s) (length a)). simpl in *. lia.
Qed.

Lemma reference_count_pos (x : jsstring) (template : jsstring) :
  x ∈ reference_names template → 1 ≤ reference_count x template.
Proof.
  unfold reference_names, reference_count.
  intros [_ (g & -> & Hg)%list_elem_of_fmap]%list_elem_of_filter.
  assert (Hin : g ∈ filter (λ g', trim g' = trim g) (interiors template))
    by (by apply list_elem_of_filter).
  destruct (filter _ _); [by apply elem_of_nil in Hin|simpl; lia].
Qed.

(** ** References after a closed text *)

Lemma first_close_app_Some (s t g post : jsstring) :
  first_close s = Some (g, post) → first_close (s ++ t) = Some (g, post ++ t).
Proof.
  intros [-> Hg]%first_close_Some. rewrite <- app_assoc. simpl.
  by apply first_close_app.
Qed.

Lemma next_reference_app_Some (s t pre g post : jsstring) :
  next_reference s = Some (pre, g, post) →
  next_reference (s ++ t) = Some (pre, g, post ++ t).
Proof.
  revert pre. induction s as [|c s IH]; intros pre; [done|].
  cbn [app next_reference].
  assert (Hlater :
    (λ '(pre, g, post), (c :: pre, g, post)) <$> next_reference s
      = Some (pre, g, post) →
    (λ '(pre, g, post), (c :: pre, g, post)) <$> next_reference (s ++ t)
      = Some (pre, g, post ++ t)).
  { destruct (next_reference s) as [[[p' g'] post']|] eqn:E; [|done]. simpl.
    intros [= <- <- <-]. by rewrite (IH _ eq_refl). }
  destruct (c =? lbrace)%N; [|done].
  destruct (first_close s) as [[[|c1 g1] post1]|] eqn:Ec.
  - by rewrite (first_close_app_Some _ t _ _ Ec).
  - rewrite (first_close_app_Some _ t _ _ Ec). by intros [= <- <- <-].
  - rewrite next_reference_no_close by (by apply first_close_None). done.
Qed.

Lemma closed_app_r (a b : jsstring) : closed (a ++ b) = true → closed b = true.
Proof.
  induction a as [|c a IH]; [done|]. simpl. intros [_ H]%andb_prop. auto.
Qed.

Lemma next_reference_closed (s pre g post : jsstring) :
  next_reference s = Some (pre, g, post) → closed s = true → closed post = true.
Proof.
  intros (-> & _ & _)%next_reference_Some Hc.
  apply closed_app_r in Hc. change (closed ((lbrace :: g) ++ rbrace :: post) = true) in Hc.
  apply closed_app_r in Hc. by apply (closed_app_r [rbrace]).
Qed.

Lemma next_reference_app_closed (s t : jsstring) :
  next_reference s = None → closed s = true →
  next_reference (s ++ t)
  = (λ '(p, g, post), (s ++ p, g, post)) <$> next_reference t.
Proof.
  induction s as [|c s IH]; cbn [app]; intros Hnone Hclosed.
  - by destruct (next_reference t) as [[[? ?] ?]|].
  - cbn [closed] in Hclosed. apply andb_prop in Hclosed as [Hc Hclosed].
    cbn [next_reference] in Hnone |- *.
    assert (Hs : next_reference s = None).
    { destruct (next_reference s) as [[[? ?] ?]|]; [|done].
      by destruct (c =? lbrace)%N, (first_close s) as [[[|? ?] ?]|]. }
    rewrite (IH Hs Hclosed). rewrite Hs in Hnone.
    destruct (c =? lbrace)%N.
    + apply bool_decide_eq_true in Hc.
      destruct (first_close s) as [[[|c1 g1] post1]|] eqn:Ec.
      * rewrite (first_close_app_Some _ t _ _ Ec).
        by destruct (next_reference t) as [[[? ?] ?]|].
      * done.
      * by apply first_close_None in Ec.
    + by destruct (next_reference t) as [[[? ?] ?]|].
Qed.

Lemma interiors_app (pre t : jsstring) :
  closed pre = true → interiors (pre ++ t) = interiors pre ++ interiors t.
Proof.
  induction pre as [s E|s p g post E IH] using scan_ind; intros Hc.
  - unfold interiors.
    rewrite (scan_unfold (s ++ t)), (scan_unfold s), (scan_unfold t), E.
    rewrite next_reference_app_closed by done.
    by destruct (next_reference t) as [[[? ?] ?]|].
  - unfold interiors in *.
    rewrite (scan_unfold (s ++ t)), (scan_unfold s), E.
    rewrite (next_reference_app_Some _ t _ _ _ E). simpl. f_equal.
    apply IH. by eapply next_reference_closed.
Qed.

Lemma reference_names_app (pre t : jsstring) :
  closed pre = true →
  reference_names (pre ++ t) = reference_names pre ++ reference_names t.
Proof.
  intros Hc. unfold reference_names.
  by rewrite interiors_app, fmap_app, filter_app.
Qed.

Lemma substitute_app (f : jsstring → jsstring) (pre t : jsstring) :
  closed pre = true →
  substitute f (pre ++ t) = substitute f pre ++ substitute f t.
Proof.
  unfold substitute.
  induction pre as [s E|s p g post E IH] using scan_ind; intros Hc.
  - rewrite (scan_unfold (s ++ t)), (scan_unfold s), (scan_unfold t), E.
    rewrite next_reference_app_closed by done.
    destruct (next_reference t) as [[[? ?] ?]|]; simpl; [|done].
    by rewrite <- app_assoc.
  - rewrite (scan_unfold (s ++ t)), (scan_unfold s), E.
    rewrite (next_reference_app_Some _ t _ _ _ E). simpl.
    rewrite IH by (by eapply next_reference_closed).
    by rewrite <- !app_assoc.
Qed.

Lemma reference_names_head (a rest : jsstring) :
  a ≠ [] → rbrace ∉ a →
  reference_names (lbrace :: a ++ rbrace :: rest)
  = name_of a ++ reference_names rest.
Proof.
  intros Ha Hr. rewrite reference_names_reference by done.
  unfold name_of. by destruct (decide (trim a = [])).
Qed.

Lemma no_reference_next (t : jsstring) :
  no_reference t → next_reference t = None.
Proof.
  intros H. destruct (next_reference t) as [[[p g] post]|] eqn:E; [|done].
  apply next_reference_Some in E as (-> & Hg & Hr). by destruct (H p g post).
Qed.

Lemma no_reference_names (t : jsstring) :
  no_reference t → reference_names t = [].
Proof.
  intros H%no_reference_next. unfold reference_names, interiors.
  by rewrite scan_unfold, H.
Qed.

Lemma no_reference_substitute (f : jsstring → jsstring) (t : jsstring) :
  no_reference t → substitute f t = t.
Proof.
  intros H%no_reference_next. unfold substitute. by rewrite scan_unfold, H.
Qed.

(** ** Lists without repetitions, part by part *)

Lemma filter_all {A} (P : A → Prop) `{!∀ x, Decision (P x)} (l : list A) :
  (∀ x, x ∈ l → P x) → filter P l = l.
Proof.
  induction l as [|x l IH]; [done|]. intros Hall.
  rewrite filter_cons_True by (apply Hall; left).
  f_equal. apply IH. intros y Hy. apply Hall. by right.
Qed.

Lemma first_occurrences_app (l1 l2 : list jsstring) :
  first_occurrences (l1 ++ l2)
  = first_occurrences l1 ++ filter (λ y, y ∉ l1) (first_occurrences l2).
Proof.
  induction l1 as [|x l1 IH]; simpl.
  - symmetry. apply filter_all. intros y _. apply not_elem_of_nil.
  - rewrite IH, filter_app, list_filter_filter. do 2 f_equal.
    apply list_filter_iff. intros y. rewrite not_elem_of_cons. tauto.
Qed.

Lemma first_occurrences_fixed (l : list jsstring) :
  NoDup l → first_occurrences l = l.
Proof.
  induction 1 as [|x l Hx Hl IH]; [done|]. simpl. rewrite IH. f_equal.
  apply filter_all. intros y Hy ->. done.
Qed.

Lemma first_occurrences_parts (l1 l2 l3 : list jsstring) :
  first_occurrences (first_occurrences l1 ++ l2 ++ first_occurrences l3)
  = first_occurrences (l1 ++ l2 ++ l3).
Proof.
  rewrite !first_occurrences_app.
  rewrite !(first_occurrences_fixed (first_occurrences _))
    by apply first_occurrences_NoDup.
  f_equal. apply list_filter_iff. intros y.
  by rewrite first_occurrences_elem_of.
Qed.

(** ** Reading a plain object *)

Lemma render_ext (f1 f2 : jsstring → jsstring)
    (refs : list (jsstring * jsstring)) (tail : jsstring) :
  (∀ g, g ∈ refs.*2 → f1 g = f2 g) → render f1 refs tail = render f2 refs tail.
Proof.
  unfold render. induction refs as [|[pre g] refs IH]; intros Hf; [done|].
  simpl. rewrite (Hf g) by (simpl; left). rewrite IH; [done|].
  intros g' Hg'. apply Hf. simpl. by right.
Qed.

Lemma Get_own (values : gmap jsstring jsstring) (key v : jsstring) :
  values !! key = Some v → Get values key = Some v.
Proof. unfold Get. by intros ->. Qed.

Lemma Get_inherited (values : gmap jsstring jsstring) (key : jsstring) :
  values !! key = None → Get values key = Object_prototype !! key.
Proof. unfold Get. by intros ->. Qed.

Lemma value_for_own (values : gmap jsstring jsstring) (g v : jsstring) :
  values !! trim g = Some v → value_for values g = v.
Proof. intros H. unfold value_for. by rewrite (Get_own _ _ _ H). Qed.

Lemma value_for_absent (values : gmap jsstring jsstring) (g : jsstring) :
  values !! trim g = None → Object_prototype !! trim g = None →
  value_for values g = [].
Proof. intros H Hp. unfold value_for. by rewrite (Get_inherited _ _ H), Hp. Qed.

Lemma Object_prototype_empty_key : Object_prototype !! ([] : jsstring) = None.
Proof. by vm_compute. Qed.

Section round_trip.
Context (values : gmap jsstring jsstring) (x s : jsstring).
Hypothesis Hx : values !! x = Some s.

Lemma render_occurrences (refs : list (jsstring * jsstring)) (tail : jsstring) :
  s ≠ [] →
  length (filter (λ g, trim g = x) refs.*2)
  ≤ occurrences s (render (value_for values) refs tail).
Proof using Hx.
  intros Hs. induction refs as [|[pre g] refs IH]; [simpl; lia|].
  cbn [render foldr]. fold (render (value_for values) refs tail).
  etrans; [|apply occurrences_suffix].
  rewrite fmap_cons. cbn [snd]. destruct (decide (trim g = x)) as [E|E].
  - rewrite filter_cons_True by done.
    assert (Hv : value_for values g = s) by (apply value_for_own; by rewrite E).
    rewrite Hv. etrans; [|by apply occurrences_self]. simpl. lia.
  - rewrite filter_cons_False by done.
    etrans; [|apply occurrences_suffix]. done.
Qed.

Lemma render_count (c : code_unit) (refs : list (jsstring * jsstring))
    (tail : jsstring) :
  count c s = 1 → c ∉ concat refs.*1 ++ tail →
  map_Forall (λ y v, y ≠ x → c ∉ v) values →
  Forall (λ g, values !! trim g = None → Object_prototype !! trim g = None)
    refs.*2 →
  count c (render (value_for values) refs tail)
  = length (filter (λ g, trim g = x) refs.*2).
Proof using Hx.
  intros Hcs Hlit Hother Hown. induction refs as [|[pre g] refs IH].
  - simpl in *. by apply count_absent.
  - cbn [render foldr]. fold (render (value_for values) refs tail).
    rewrite fmap_cons in Hlit. cbn [fst concat] in Hlit.
    rewrite <- app_assoc in Hlit. apply not_elem_of_app in Hlit as [Hpre Hlit].
    rewrite fmap_cons in Hown. apply Forall_cons in Hown as [Hg Hown].
    rewrite !count_app, (count_absent _ _ Hpre), (IH Hlit Hown).
    rewrite fmap_cons. cbn [snd]. destruct (decide (trim g = x)) as [E|E].
    + rewrite filter_cons_True by done.
      assert (Hv : value_for values g = s) by (apply value_for_own; by rewrite E).
      rewrite Hv, Hcs. done.
    + rewrite filter_cons_False by done.
      rewrite count_absent; [done|].
      destruct (values !! trim g) as [v|] eqn:Ev.
      * rewrite (value_for_own _ _ _ Ev). by apply (Hother _ _ Ev).
      * rewrite value_for_absent by auto. apply not_elem_of_nil.
Qed.
End round_trip.

(** ** The claims about the template engine *)

(** C1. For every template, [extractVariables] returns the trimmed,
    non-empty names of its references without repetition (every name once,
    and no other element), ordered by the position at which each name first
    occurs when the template is read from left to right. *)
Theorem extractVariables_first_occurrence_order (template : jsstring) (h : Heap) :
  ∃ vars,
    returns (extractVariables template) h vars ∧
    NoDup vars ∧
    (∀ x, x ∈ vars ↔ x ∈ reference_names template) ∧
    (∀ x, x ∈ vars →
       reference_names template !! first_index x (reference_names template)
         = Some x ∧
       ∀ j, j < first_index x (reference_names template) →
            reference_names template !! j ≠ Some x) ∧
    (∀ i j x y, vars !! i = Some x → vars !! j = Some y → i < j →
       first_index x (reference_names template)
       < first_index y (reference_names template)).
Proof.
  exists (first_occurrences (reference_names template)).
  split; [unfold returns; by rewrite extractVariables_run|].
  split; [apply first_occurrences_NoDup|].
  split; [intros x; apply first_occurrences_elem_of|].
  split; [|apply first_occurrences_order].
  intros x Hx. by apply first_index_lookup, first_occurrences_elem_of.
Qed.

Lemma extractVariables_first_occurrence_order_witness :
  first_index (js "b") (reference_names (js "{b} {a} { b }"))
  < first_index (js "a") (reference_names (js "{b} {a} { b }")).
Proof.
  destruct (extractVariables_first_occurrence_order (js "{b} {a} { b }") [])
    as (vars & Hret & _ & _ & _ & Hord).
  vm_compute in Hret. injection Hret as <-.
  apply (Hord 0 1); [reflexivity|reflexivity|lia].
Defined.

(** C2, as stated, fails: in [{ }] the trimmed name is empty, and a mapping
    with an entry for the empty key has that entry's value substituted, not
    the empty string. *)
Lemma applyVariables_empty_name_counterexample :
  returns (applyVariables (js "{ }") {[ [] := js "x" ]}) [] (js "x") ∧
  ¬ replaces_as_specified (js "{ }") {[ [] := js "x" ]}.
Proof.
  split; [by vm_compute|].
  intros H. specialize (H []). apply applyVariables_returns in H.
  vm_compute in H. discriminate H.
Qed.

(** C2, amended. [applyVariables] returns the template with every reference
    (braces included) replaced: by the mapping's value for the trimmed
    interior when the mapping has an entry for it, and by the empty string
    when it has none and the name is not one of the members every object
    inherits (for those nothing is said here, see C3).  An empty trimmed
    name is looked up like any other, and a pair of braces with nothing
    between them is no reference and stays.  So
    [apply("Hi {name}", {}) = "Hi "] and
    [apply("{a} and {a}", {a: "x"}) = "x and x"]. *)
Theorem applyVariables_replaces_references (template : jsstring)
    (values : gmap jsstring jsstring) (h : Heap) :
  reassemble (scan template).1 (scan template).2 = template ∧
  (∃ replacement,
     returns (applyVariables template values) h
       (render replacement (scan template).1 (scan template).2) ∧
     ∀ g,
       (∀ v, values !! trim g = Some v → replacement g = v) ∧
       (values !! trim g = None → Object_prototype !! trim g = None →
        replacement g = [])) ∧
  (∀ out, returns (applyVariables template values) h out ↔
     returns (applyVariables (lbrace :: rbrace :: template) values) h
       (lbrace :: rbrace :: out)) ∧
  returns (applyVariables (js "Hi {name}") ∅) h (js "Hi ") ∧
  returns (applyVariables (js "{a} and {a}") {[ js "a" := js "x" ]}) h
    (js "x and x").
Proof.
  split_and!.
  - apply scan_reassemble.
  - exists (value_for values). split; [by apply applyVariables_returns|].
    intros g. split; [apply value_for_own|apply value_for_absent].
  - intros out. rewrite !applyVariables_returns, substitute_empty_braces.
    split; [by intros ->|by intros [= ->]].
  - apply applyVariables_returns. by vm_compute.
  - apply applyVariables_returns. by vm_compute.
Qed.

(** C3. Both functions are total: for every template, every mapping and
    every store, [extractVariables] and [applyVariables] complete normally
    (no exception, and the matching loop ends).  But a name that has no
    entry in the mapping does not always resolve to the empty string:
    [values[key]] also finds what the object inherits, so every reference
    is replaced by the mapping's entry, else by the text of the inherited
    member of that name, and only else by the empty string.  With the empty
    mapping [{constructor}] becomes the text of the function [Object]. *)
Theorem applyVariables_substitutes_inherited_members :
  (∀ template values h,
     (∃ vars h', extractVariables template h = (Normal vars, h')) ∧
     (∃ out h', applyVariables template values h = (Normal out, h'))) ∧
  (∀ template values h,
     returns (applyVariables template values) h
       (substitute
          (λ g, match values !! trim g with
                | Some v => v
                | None => default [] (Object_prototype !! trim g)
                end) template)) ∧
  (∀ h, returns (applyVariables (js "{constructor}") ∅) h
          (js "function Object() { [native code] }")) ∧
  (∀ h, ¬ returns (applyVariables (js "{constructor}") ∅) h []).
Proof.
  split_and!.
  - intros template values h. split.
    + rewrite extractVariables_run. by eexists _, _.
    + rewrite applyVariables_run. by eexists _, _.
  - intros template values h. apply applyVariables_returns.
    apply render_ext. intros g _. unfold value_for, Get.
    by destruct (values !! trim g).
  - intros h. apply applyVariables_returns. by vm_compute.
  - intros h Hret. apply applyVariables_returns in Hret.
    vm_compute in Hret. discriminate Hret.
Qed.

(** C4. Braces that are not part of a reference stay in the output as they
    are.  Every template splits into references (a [{], a non-empty interior
    without [}], a [}]) and literal text that holds no reference (before a
    reference every [{] of it is directly followed by a [}]);
    [applyVariables] replaces the references and copies the literal text,
    and [extractVariables] reads the names off the same references.  In
    particular text before the first [{] (a stray [}] included) and text
    after the last [}] (an unclosed [{] included) is copied and adds no
    variable.  So [apply("literal { unclosed", {}) = "literal { unclosed"]
    and [extract("literal { unclosed") = []]. *)
Theorem applyVariables_keeps_dangling_braces :
  (∀ template values h, ∃ refs tail,
     reassemble refs tail = template ∧
     Forall (λ '(pre, g), empty_braces_only pre ∧ g ≠ [] ∧ rbrace ∉ g) refs ∧
     next_reference tail = None ∧
     returns (applyVariables template values) h
       (render (value_for values) refs tail) ∧
     returns (extractVariables template) h
       (first_occurrences (filter (λ x, x ≠ []) (trim <$> refs.*2)))) ∧
  (∀ pre mid tail values h out,
     lbrace ∉ pre → rbrace ∉ tail →
     returns (applyVariables mid values) h out →
     returns (applyVariables (pre ++ mid ++ tail) values) h (pre ++ out ++ tail)) ∧
  (∀ pre mid tail h vars,
     lbrace ∉ pre → rbrace ∉ tail →
     returns (extractVariables mid) h vars →
     returns (extractVariables (pre ++ mid ++ tail)) h vars) ∧
  (∀ h, returns (applyVariables (js "literal { unclosed") ∅) h
          (js "literal { unclosed")) ∧
  (∀ h, returns (extractVariables (js "literal { unclosed")) h []).
Proof.
  split_and!.
  - intros template values h. exists (scan template).1, (scan template).2.
    destruct (scan_wellformed template) as [Hrefs Htail].
    split; [apply scan_reassemble|]. split; [done|]. split; [done|].
    split; [by apply applyVariables_returns|by apply extractVariables_returns].
  - intros pre mid tail values h out Hpre Htail.
    rewrite !applyVariables_returns. intros ->.
    by rewrite substitute_skip, substitute_app_tail.
  - intros pre mid tail h vars Hpre Htail.
    rewrite !extractVariables_returns. intros ->.
    by rewrite reference_names_skip, reference_names_app_tail.
  - intros h. apply applyVariables_returns. by vm_compute.
  - intros h. apply extractVariables_returns. by vm_compute.
Qed.

Lemma applyVariables_keeps_dangling_braces_witness :
  returns (applyVariables (js "a } b {x} c { d") {[ js "x" := js "X" ]}) []
    (js "a } b X c { d").
Proof.
  apply (proj1 (proj2 applyVariables_keeps_dangling_braces)
           (js "a } b ") (js "{x} c ") (js "{ d") {[ js "x" := js "X" ]} []
           (js "X c ")).
  - compute_done.
  - compute_done.
  - compute_done.
Defined.

(** C5. A reference ends at the first [}] after its [{], wherever it
    stands: after any text in which nothing is left open, a [{], an interior
    [a] without [}] and a [}] are one reference, and what follows that [}]
    is read on its own, so the variables are those of the text before, the
    name of [a], and those of the text after, without repetitions.  A text
    that holds no reference has no variables.  So
    [extract("{a}{b}") = ["a", "b"]]. *)
Theorem references_end_at_first_close :
  (∀ pre a rest h vars1 vars2,
     closed pre = true → a ≠ [] → rbrace ∉ a →
     returns (extractVariables pre) h vars1 →
     returns (extractVariables rest) h vars2 →
     returns (extractVariables (pre ++ lbrace :: a ++ rbrace :: rest)) h
       (first_occurrences (vars1 ++ name_of a ++ vars2))) ∧
  (∀ t h, no_reference t → returns (extractVariables t) h []) ∧
  (∀ h, returns (extractVariables (js "{a}{b}")) h [js "a"; js "b"]).
Proof.
  split_and!.
  - intros pre a rest h vars1 vars2 Hpre Ha Hr.
    rewrite !extractVariables_returns. intros -> ->.
    rewrite reference_names_app, reference_names_head by done.
    by rewrite first_occurrences_parts.
  - intros t h Hno. apply extractVariables_returns.
    by rewrite no_reference_names.
  - intros h. apply extractVariables_returns. by vm_compute.
Qed.

Lemma references_end_at_first_close_witness :
  returns (extractVariables (js "x{a} {b}}{a}")) [] [js "a"; js "b"].
Proof.
  apply (proj1 references_end_at_first_close (js "x{a} ") (js "b") (js "}{a}")
           [] [js "a"] [js "a"]).
  - compute_done.
  - compute_done.
  - compute_done.
  - compute_done.
  - compute_done.
Defined.

(** C6. [extractVariables] never returns an empty name, and braces around
    nothing or around whitespace add no variable, wherever they stand:
    after any text in which nothing is left open, the template has the
    variables of the text before and of the text after the braces.  A
    reference whose interior is more than whitespace adds its trimmed name,
    and a text that holds no reference has no variables.  So
    [extract("{}") = []], [extract("{   }") = []] and [extract("") = []]. *)
Theorem extractVariables_discards_blank_names :
  (∀ t h vars, returns (extractVariables t) h vars → [] ∉ vars) ∧
  (∀ pre w post h vars1 vars2,
     closed pre = true → forallb is_whitespace w = true →
     returns (extractVariables pre) h vars1 →
     returns (extractVariables post) h vars2 →
     returns (extractVariables (pre ++ lbrace :: w ++ rbrace :: post)) h
       (first_occurrences (vars1 ++ vars2))) ∧
  (∀ pre a post h vars1 vars2,
     closed pre = true → rbrace ∉ a → trim a ≠ [] →
     returns (extractVariables pre) h vars1 →
     returns (extractVariables post) h vars2 →
     returns (extractVariables (pre ++ lbrace :: a ++ rbrace :: post)) h
       (first_occurrences (vars1 ++ trim a :: vars2))) ∧
  (∀ t h, no_reference t → returns (extractVariables t) h []) ∧
  (∀ h, returns (extractVariables (js "{}")) h []) ∧
  (∀ h, returns (extractVariables (js "{   }")) h []) ∧
  (∀ h, returns (extractVariables (js "")) h []).
Proof.
  split_and!.
  - intros t h vars ->%extractVariables_returns.
    rewrite first_occurrences_elem_of. apply reference_names_nonempty.
  - intros pre w post h vars1 vars2 Hpre Hw.
    rewrite !extractVariables_returns. intros -> ->.
    rewrite reference_names_app, reference_names_blank by done.
    apply (first_occurrences_parts _ []).
  - intros pre a post h vars1 vars2 Hpre Hr Ha.
    assert (a ≠ []) by (by intros ->).
    rewrite !extractVariables_returns. intros -> ->.
    rewrite reference_names_app, reference_names_head by done.
    unfold name_of. rewrite decide_False by done.
    apply (first_occurrences_parts _ [trim a]).
  - intros t h Hno. apply extractVariables_returns.
    by rewrite no_reference_names.
  - intros h. apply extractVariables_returns. by vm_compute.
  - intros h. apply extractVariables_returns. by vm_compute.
  - intros h. apply extractVariables_returns. by vm_compute.
Qed.

Lemma extractVariables_discards_blank_names_witness :
  returns (extractVariables (js "{a}} { } {x}")) [] [js "a"; js "x"].
Proof.
  apply (proj1 (proj2 extractVariables_discards_blank_names)
           (js "{a}} ") (js " ") (js " {x}") [] [js "a"] [js "x"]).
  - compute_done.
  - compute_done.
  - compute_done.
  - compute_done.
Defined.

(** C7, as stated, fails: with [{b}{a}{a}] and the values ["ab"] for [a] and
    ["ba"] for [b], different and not empty, the output is ["baabab"], where
    ["ba"] occurs twice although [b] is referred to once. *)
Lemma round_trip_counterexample :
  ¬ round_trip_as_stated (js "{b}{a}{a}")
      {[ js "a" := js "ab"; js "b" := js "ba" ]}.
Proof.
  intros H.
  destruct (H [] [js "b"; js "a"] (js "baabab") (js "b") (js "ba")) as [_ Heq].
  - compute_done.
  - compute_done.
  - compute_done.
  - compute_done.
  - compute_done.
  - vm_compute in Heq. discriminate Heq.
Qed.

(** C7, amended. With a mapping that gives every extracted name a non-empty
    value of its own, the value of each name occurs in the output at least
    once and at least as often as the template refers to the name; it
    occurs exactly that often when the value holds a code unit that occurs
    once in it and nowhere else in the output's sources (the template's
    text outside the references and the other values of the mapping). *)
Theorem round_trip_sentinels (template : jsstring)
    (values : gmap jsstring jsstring) (h : Heap) (vars : list jsstring)
    (x s : jsstring) :
  returns (extractVariables template) h vars →
  sentinel_mapping vars values = true →
  x ∈ vars → values !! x = Some s →
  ∃ out,
    returns (applyVariables template values) h out ∧
    1 ≤ occurrences s out ∧
    reference_count x template ≤ occurrences s out ∧
    (∀ c, marker c x s template values →
          occurrences s out = reference_count x template).
Proof.
  intros ->%extractVariables_returns Hsent Hvar Hx.
  assert (Hin : x ∈ reference_names template)
    by (by apply first_occurrences_elem_of).
  assert (Hs : s ≠ []).
  { apply andb_prop in Hsent as [Hall _]. rewrite forallb_forall in Hall.
    specialize (Hall x). rewrite Hx in Hall. intros ->.
    assert (false = true); [|done].
    by apply Hall, list_elem_of_In. }
  exists (substitute (value_for values) template).
  split; [by apply applyVariables_returns|].
  pose proof (reference_count_pos _ _ Hin) as Hpos.
  pose proof (render_occurrences values x s Hx (scan template).1
                (scan template).2 Hs) as Hlow.
  fold (interiors template) in Hlow. fold (reference_count x template) in Hlow.
  fold (substitute (value_for values) template) in Hlow.
  split; [lia|]. split; [done|].
  intros c (Hcs & Hlit & Hother).
  apply Nat.le_antisymm; [|done].
  destruct (list_elem_of_split s c) as (a & b & ->).
  { destruct (decide (c ∈ s)) as [|Hn]; [done|].
    apply count_absent in Hn. lia. }
  etrans; [apply occurrences_le_count|]. etrans; [apply count_drop|].
  unfold substitute. rewrite (render_count values x _ Hx c); [done..|].
  apply Forall_forall. intros g Hg Hnone.
  destruct (decide (trim g = [])) as [E|E].
  { rewrite E. apply Object_prototype_empty_key. }
  assert (Hname : trim g ∈ reference_names template).
  { unfold reference_names. apply list_elem_of_filter. split; [done|].
    by apply list_elem_of_fmap_2. }
  apply andb_prop in Hsent as [Hall _]. rewrite forallb_forall in Hall.
  specialize (Hall (trim g)). rewrite Hnone in Hall.
  assert (false = true); [|done].
  by apply Hall, list_elem_of_In, first_occurrences_elem_of.
Qed.

Lemma round_trip_sentinels_witness :
  ∃ out,
    returns (applyVariables (js "{name}: hello {name}, meet {friend}")
               {[ js "name" := js "<N>"; js "friend" := js "<F>" ]}) [] out ∧
    occurrences (js "<N>") out = 2.
Proof.
  destruct (round_trip_sentinels (js "{name}: hello {name}, meet {friend}")
              {[ js "name" := js "<N>"; js "friend" := js "<F>" ]} []
              [js "name"; js "friend"] (js "name") (js "<N>"))
    as (out & Hout & _ & _ & Hmark).
  - compute_done.
  - compute_done.
  - compute_done.
  - compute_done.
  - exists out. split; [exact Hout|].
    rewrite (Hmark 78%N); [compute_done|].
    split; [compute_done|]. split; compute_done.
Defined.

(** C8. Both functions are deterministic and carry no state from call to
    call: the result does not depend on the store the call starts in
    (whatever earlier calls left there), what was in the store is still
    there afterwards, and calling a function twice in a row gives the same
    result twice. *)
Theorem template_engine_stateless (template : jsstring)
    (values : gmap jsstring jsstring) (h1 h2 : Heap) :
  (extractVariables template h1).1 = (extractVariables template h2).1 ∧
  (applyVariables template values h1).1 = (applyVariables template values h2).1 ∧
  (∃ new, (extractVariables template h1).2 = h1 ++ new) ∧
  (∃ new, (applyVariables template values h1).2 = h1 ++ new) ∧
  (∃ vars, returns (a ← extractVariables template;
                    b ← extractVariables template; mret (a, b)) h1 (vars, vars)) ∧
  (∃ out, returns (a ← applyVariables template values;
                   b ← applyVariables template values; mret (a, b)) h1 (out, out)).
Proof.
  split_and!.
  - by rewrite !extractVariables_run.
  - by rewrite !applyVariables_run.
  - rewrite extractVariables_run. by eexists.
  - rewrite applyVariables_run. by eexists.
  - eexists. unfold returns, mbind, JS_bind. by rewrite !extractVariables_run.
  - eexists. unfold returns, mbind, JS_bind. by rewrite !applyVariables_run.
Qed.

(** C9. The name of a reference is its interior without the whitespace
    around it, wherever the reference stands: after any text in which
    nothing is left open, [{ name }] adds the variable [name], as [{name}]
    does, and is replaced by what [{name}] is replaced by, so the two are
    the same variable for [extractVariables] and for [applyVariables];
    whitespace inside the name is kept.  A text that holds no reference has
    no variables and is copied.  So [extract("{ topic }") = ["topic"]] and
    [extract("{first name}") = ["first name"]]. *)
Theorem whitespace_around_names_ignored :
  (∀ n w1 w2,
     no_outer_whitespace n = true →
     forallb is_whitespace w1 = true → forallb is_whitespace w2 = true →
     trim (w1 ++ n ++ w2) = n) ∧
  (∀ pre n w1 w2 rest h vars1 vars2,
     closed pre = true → no_outer_whitespace n = true → rbrace ∉ n →
     forallb is_whitespace w1 = true → forallb is_whitespace w2 = true →
     returns (extractVariables pre) h vars1 →
     returns (extractVariables rest) h vars2 →
     returns (extractVariables
                (pre ++ lbrace :: (w1 ++ n ++ w2) ++ rbrace :: rest)) h
       (first_occurrences (vars1 ++ n :: vars2))) ∧
  (∀ pre n w1 w2 rest values h out1 out out2,
     closed pre = true → no_outer_whitespace n = true → rbrace ∉ n →
     forallb is_whitespace w1 = true → forallb is_whitespace w2 = true →
     returns (applyVariables pre values) h out1 →
     returns (applyVariables (lbrace :: n ++ [rbrace]) values) h out →
     returns (applyVariables rest values) h out2 →
     returns (applyVariables
                (pre ++ lbrace :: (w1 ++ n ++ w2) ++ rbrace :: rest) values) h
       (out1 ++ out ++ out2)) ∧
  (∀ pre n w1 w2 rest h vars,
     closed pre = true → no_outer_whitespace n = true → rbrace ∉ n →
     forallb is_whitespace w1 = true → forallb is_whitespace w2 = true →
     returns (extractVariables (pre ++ lbrace :: n ++ rbrace :: rest)) h vars →
     returns (extractVariables
                (pre ++ lbrace :: (w1 ++ n ++ w2) ++ rbrace :: rest)) h vars) ∧
  (∀ pre n w1 w2 rest values h out,
     closed pre = true → no_outer_whitespace n = true → rbrace ∉ n →
     forallb is_whitespace w1 = true → forallb is_whitespace w2 = true →
     returns (applyVariables (pre ++ lbrace :: n ++ rbrace :: rest) values) h out →
     returns (applyVariables
                (pre ++ lbrace :: (w1 ++ n ++ w2) ++ rbrace :: rest) values) h out) ∧
  (∀ t values h,
     no_reference t →
     returns (extractVariables t) h [] ∧ returns (applyVariables t values) h t) ∧
  (∀ h, returns (extractVariables (js "{ topic }")) h [js "topic"]) ∧
  (∀ h, returns (extractVariables (js "{first name}")) h [js "first name"]) ∧
  (∀ h, returns (extractVariables (js "{ name } and {name}")) h [js "name"]).
Proof.
  assert (Hpad : ∀ n w1 w2 : jsstring,
    no_outer_whitespace n = true → rbrace ∉ n →
    forallb is_whitespace w1 = true → forallb is_whitespace w2 = true →
    n ≠ [] ∧ w1 ++ n ++ w2 ≠ [] ∧ rbrace ∉ w1 ++ n ++ w2).
  { intros n w1 w2 Hn Hr Hw1 Hw2. destruct n as [|a n]; [done|].
    split; [done|]. split; [by destruct w1|].
    rewrite !elem_of_app.
    intros [?%whitespace_no_rbrace|[?|?%whitespace_no_rbrace]]; done. }
  assert (Hnames : ∀ pre n w1 w2 rest : jsstring,
    closed pre = true → no_outer_whitespace n = true → rbrace ∉ n →
    forallb is_whitespace w1 = true → forallb is_whitespace w2 = true →
    reference_names (pre ++ lbrace :: (w1 ++ n ++ w2) ++ rbrace :: rest)
    = reference_names pre ++ n :: reference_names rest).
  { intros pre n w1 w2 rest Hpre Hn Hr Hw1 Hw2.
    destruct (Hpad n w1 w2) as (? & ? & ?); [done..|].
    rewrite reference_names_app, reference_names_reference by done.
    rewrite trim_padded by done. by rewrite decide_False. }
  assert (Hvalue : ∀ values (pre n w1 w2 rest : jsstring),
    closed pre = true → no_outer_whitespace n = true → rbrace ∉ n →
    forallb is_whitespace w1 = true → forallb is_whitespace w2 = true →
    substitute (value_for values)
      (pre ++ lbrace :: (w1 ++ n ++ w2) ++ rbrace :: rest)
    = substitute (value_for values) pre ++ value_for values n
      ++ substitute (value_for values) rest).
  { intros values pre n w1 w2 rest Hpre Hn Hr Hw1 Hw2.
    destruct (Hpad n w1 w2) as (? & ? & ?); [done..|].
    rewrite substitute_app, substitute_reference by done.
    unfold value_for. by rewrite trim_padded, trim_fixed by done. }
  split_and!.
  - apply trim_padded.
  - intros pre n w1 w2 rest h vars1 vars2 Hpre Hn Hr Hw1 Hw2.
    rewrite !extractVariables_returns. intros -> ->.
    rewrite Hnames by done. apply (first_occurrences_parts _ [n]).
  - intros pre n w1 w2 rest values h out1 out out2 Hpre Hn Hr Hw1 Hw2.
    rewrite !applyVariables_returns. intros -> -> ->.
    rewrite Hvalue by done.
    pose proof (Hvalue values [] n [] [] [] eq_refl Hn Hr eq_refl eq_refl)
      as Hone.
    rewrite !app_nil_l, app_nil_r in Hone. rewrite Hone.
    change (substitute (value_for values) []) with ([] : jsstring).
    by rewrite app_nil_r.
  - intros pre n w1 w2 rest h vars Hpre Hn Hr Hw1 Hw2.
    rewrite !extractVariables_returns. intros ->.
    rewrite Hnames by done.
    pose proof (Hnames pre n [] [] rest Hpre Hn Hr eq_refl eq_refl) as Hplain.
    rewrite app_nil_l, app_nil_r in Hplain. by rewrite Hplain.
  - intros pre n w1 w2 rest values h out Hpre Hn Hr Hw1 Hw2.
    rewrite !applyVariables_returns. intros ->.
    rewrite Hvalue by done.
    pose proof (Hvalue values pre n [] [] rest Hpre Hn Hr eq_refl eq_refl)
      as Hplain.
    rewrite app_nil_l, app_nil_r in Hplain. by rewrite Hplain.
  - intros t values h Hno. split.
    + apply extractVariables_returns. by rewrite no_reference_names.
    + apply applyVariables_returns. by rewrite no_reference_substitute.
  - intros h. apply extractVariables_returns. by vm_compute.
  - intros h. apply extractVariables_returns. by vm_compute.
  - intros h. apply extractVariables_returns. by vm_compute.
Qed.

Lemma whitespace_around_names_ignored_witness :
  returns (applyVariables (js "{a} and {  first name } !")
             {[ js "first name" := js "Ann"; js "a" := js "B" ]}) []
    (js "B and Ann !").
Proof.
  apply (proj1 (proj2 (proj2 whitespace_around_names_ignored))
           (js "{a} and ") (js "first name") (js "  ") (js " ") (js " !")
           {[ js "first name" := js "Ann"; js "a" := js "B" ]} []
           (js "B and ") (js "Ann") (js " !")).
  - compute_done.
  - compute_done.
  - compute_done.
  - compute_done.
  - compute_done.
  - compute_done.
  - compute_done.
  - compute_done.
Defined.

(** ** The claim about the error log *)

Module ErrorHandlerFacts.
Import ErrorHandler.

Lemma shift_drop {A} (l : list A) : shift l = drop 1 l.
Proof. by destruct l. Qed.

Lemma run_snoc (ms : list method_call) (m : method_call) :
  run (ms ++ [m]) = step (run ms) m.
Proof. unfold run. by rewrite foldl_app. Qed.

Lemma after_snoc (cs : list call) (c : call) :
  after (cs ++ [c]) = logError (after cs) c.
Proof. unfold after. rewrite fmap_app. apply run_snoc. Qed.

Lemma run_maxLogSize (ms : list method_call) : maxLogSize (run ms) = 100.
Proof.
  induction ms as [|m ms IH] using rev_ind; [done|].
  rewrite run_snoc. by destruct m.
Qed.

Lemma logError_length (this : state) (c : call) :
  length (errorLog this) ≤ maxLogSize this →
  length (errorLog (logError this c)) ≤ maxLogSize this.
Proof.
  intros Hle. unfold logError. cbn [errorLog].
  destruct (decide _) as [Hfull|Hroom]; [|lia].
  rewrite shift_drop, length_drop, length_app. simpl. lia.
Qed.

Lemma run_length (ms : list method_call) : length (errorLog (run ms)) ≤ 100.
Proof.
  induction ms as [|m ms IH] using rev_ind; [simpl; lia|].
  rewrite run_snoc. destruct m as [c|]; [|simpl; lia].
  rewrite <- (run_maxLogSize ms) in IH |- *. by apply logError_length.
Qed.

(** The history holds the most recent entries, at most 100 of them, oldest
    first. *)
Lemma after_errorLog (cs : list call) :
  errorLog (after cs) = drop (length cs - 100) (loggedError <$> cs).
Proof.
  induction cs as [|c cs IH] using rev_ind; [done|].
  rewrite after_snoc. unfold logError.
  rewrite (run_maxLogSize (LogError <$> cs) : maxLogSize (after cs) = 100), IH.
  cbn [errorLog].
  rewrite fmap_app, !length_app, length_drop, length_fmap. cbn [length fmap list_fmap].
  destruct (decide (100 < length cs - (length cs - 100) + 1)) as [Hfull|Hroom].
  - rewrite shift_drop, drop_app_le by (rewrite length_drop, length_fmap; lia).
    rewrite drop_drop. rewrite (drop_app_le _ _ (length cs + 1 - 100))
      by (rewrite length_fmap; lia).
    do 2 f_equal. lia.
  - replace (length cs - 100) with 0 by lia.
    replace (length cs + 1 - 100) with 0 by lia. done.
Qed.

Lemma getErrorLog_drop (this : state) (limit : option Z) :
  ∃ k, getErrorLog this limit = drop k (errorLog this).
Proof.
  destruct limit as [n|]; simpl; [|by exists 0].
  destruct (n =? 0)%Z; [by exists 0|]. unfold slice. by eexists.
Qed.

(** C10. After any sequence of [logError] (and [clearErrorLog]) calls on a
    new handler the history holds at most 100 entries.  After [logError]
    calls alone they are the most recent entries in the order they were
    logged; a call made when the history is full removes the oldest entry
    and appends the new one; and [getErrorLog] returns the history or an end
    of it, never more than the 100 most recent entries. *)
Theorem errorLog_bounded :
  (∀ ms, length (errorLog (run ms)) ≤ 100) ∧
  (∀ cs, errorLog (after cs) = drop (length cs - 100) (loggedError <$> cs)) ∧
  (∀ ms c, length (errorLog (run ms)) = 100 →
     errorLog (run (ms ++ [LogError c]))
     = tail (errorLog (run ms)) ++ [loggedError c]) ∧
  (∀ ms limit, ∃ k,
     getErrorLog (run ms) limit = drop k (errorLog (run ms)) ∧
     length (getErrorLog (run ms) limit) ≤ 100).
Proof.
  split_and!; [apply run_length|apply after_errorLog| |].
  - intros ms c Hfull. rewrite run_snoc. cbn [step]. unfold logError.
    rewrite run_maxLogSize. cbn [errorLog].
    rewrite decide_True by (rewrite length_app; simpl; lia).
    unfold shift. by destruct (errorLog (run ms)).
  - intros ms limit. destruct (getErrorLog_drop (run ms) limit) as [k Hk].
    exists k. split; [done|].
    rewrite Hk, length_drop. pose proof (run_length ms). lia.
Qed.

Lemma errorLog_bounded_witness :
  errorLog (run (replicate 100 (LogError (storage_failure 1))
                 ++ [LogError (storage_failure 2)]))
  = replicate 99 (loggedError (storage_failure 1))
    ++ [loggedError (storage_failure 2)].
Proof.
  rewrite (proj1 (proj2 (proj2 errorLog_bounded))
             (replicate 100 (LogError (storage_failure 1))) (storage_failure 2)).
  - reflexivity.
  - reflexivity.
Defined.

(** *** Further properties of the handler *)




(** X14. [getErrorLog(limit)] with a positive limit returns the [limit]
    most recent entries (all of them when there are fewer); without a
    limit, or with the limit 0, it returns the whole history; with a
    negative limit [-n] it returns the history without its [n] oldest
    entries. *)
Theorem getErrorLog_limit (this : state) :
  getErrorLog this None = errorLog this ∧
  getErrorLog this (Some 0%Z) = errorLog this ∧
  (∀ n : nat, 0 < n →
     getErrorLog this (Some (Z.of_nat n))
     = drop (length (errorLog this) - n) (errorLog this) ∧
     length (getErrorLog this (Some (Z.of_nat n))) = n `min` length (errorLog this)) ∧
  (∀ n : nat, 0 < n →
     getErrorLog this (Some (- Z.of_nat n)%Z) = drop n (errorLog this)).
Proof.
  split_and!; [done|done| |].
  - intros n Hn. unfold getErrorLog, slice.
    destruct (Z.eqb_spec (Z.of_nat n) 0) as [|_]; [lia|].
    destruct (Z.ltb_spec (- Z.of_nat n) 0) as [_|]; [|lia].
    assert (Hk : Z.to_nat (Z.max (Z.of_nat (length (errorLog this)) + - Z.of_nat n) 0)
                 = length (errorLog this) - n) by lia.
    rewrite Hk. split; [done|]. rewrite length_drop. lia.
  - intros n Hn. unfold getErrorLog, slice.
    destruct (Z.eqb_spec (- Z.of_nat n) 0) as [|_]; [lia|].
    destruct (Z.ltb_spec (- - Z.of_nat n) 0) as [|_]; [lia|].
    destruct (decide (n ≤ length (errorLog this))) as [Hle|Hgt].
    + f_equal. lia.
    + rewrite !drop_ge by lia. done.
Qed.

Lemma getErrorLog_limit_witness :
  getErrorLog (run (LogError <$> [storage_failure 1; storage_failure 2;
                                  storage_failure 3])) (Some 2%Z)
  = [loggedError (storage_failure 2); loggedError (storage_failure 3)].
Proof.
  rewrite (proj1 (proj1 (proj2 (proj2 (getErrorLog_limit _))) 2 ltac:(lia))).
  reflexivity.
Defined.

Lemma run_after_clear (ms rest : list method_call) :
  run (ms ++ ClearErrorLog :: rest) = run rest.
Proof.
  unfold run. rewrite foldl_app. cbn [foldl step]. f_equal.
  unfold clearErrorLog. fold (run ms). by rewrite run_maxLogSize.
Qed.

(** X15. After any calls of the handler's methods, the history is what the
    [logError] calls since the last [clearErrorLog] left: the most recent
    100 of their entries, in order.  Right after [clearErrorLog],
    [getErrorLog] returns nothing for every limit. *)
Theorem errorLog_after_clear (ms : list method_call) (cs : list call) :
  errorLog (run (ms ++ ClearErrorLog :: (LogError <$> cs)))
  = drop (length cs - 100) (loggedError <$> cs) ∧
  (∀ limit, getErrorLog (run (ms ++ [ClearErrorLog])) limit = []).
Proof.
  split.
  - rewrite run_after_clear. apply after_errorLog.
  - intros limit. destruct (getErrorLog_drop (run (ms ++ [ClearErrorLog])) limit)
      as [k ->]. rewrite run_after_clear. simpl. by rewrite drop_nil.
Qed.


End ErrorHandlerFacts.

(** * Part III: further properties of the code *)

(** ** templateEngine.ts *)

Lemma trimStart_split (s : jsstring) :
  ∃ w, s = w ++ trimStart s ∧ forallb is_whitespace w = true.
Proof.
  induction s as [|c s (w & Hs & Hw)]; [by exists []|]. simpl.
  destruct (is_whitespace c) eqn:Hc; [|by exists []].
  exists (c :: w). simpl. rewrite Hc, Hw. split; [by f_equal|done].
Qed.

Lemma trimStart_head_not_whitespace (s : jsstring) (c : code_unit) (r : jsstring) :
  trimStart s = c :: r → is_whitespace c = false.
Proof.
  induction s as [|d s IH]; [done|]. simpl.
  destruct (is_whitespace d) eqn:Hd; [done|]. by intros [= <- _].
Qed.

Lemma trimEnd_split (s : jsstring) :
  ∃ w, s = trimEnd s ++ w ∧ forallb is_whitespace w = true.
Proof.
  destruct (trimStart_split (reverse s)) as (w & Hs & Hw).
  exists (reverse w). split; [|by rewrite forallb_reverse].
  unfold trimEnd. rewrite <- reverse_app, <- Hs. by rewrite reverse_involutive.
Qed.

(** [trim] removes whitespace at both ends and nothing else. *)
Lemma trim_split (s : jsstring) :
  ∃ w1 w2, s = w1 ++ trim s ++ w2 ∧
    forallb is_whitespace w1 = true ∧ forallb is_whitespace w2 = true.
Proof.
  destruct (trimStart_split s) as (w1 & Hs & Hw1).
  destruct (trimEnd_split (trimStart s)) as (w2 & Hs' & Hw2).
  exists w1, w2. split; [|done]. unfold trim. by rewrite <- Hs'.
Qed.

Lemma trim_no_outer_whitespace (s : jsstring) :
  trim s ≠ [] → no_outer_whitespace (trim s) = true.
Proof.
  intros Hne. unfold no_outer_whitespace.
  destruct (trim s) as [|a t] eqn:Et; [done|].
  assert (Ha : is_whitespace a = false).
  { destruct (trimEnd_split (trimStart s)) as (w & Hs & _).
    fold (trim s) in Hs. rewrite Et in Hs.
    by eapply trimStart_head_not_whitespace. }
  assert (Hrev : reverse (a :: t) = trimStart (reverse (trimStart s))).
  { rewrite <- Et. unfold trim, trimEnd. by rewrite reverse_involutive. }
  destruct (reverse (a :: t)) as [|b r] eqn:Er.
  { apply (f_equal reverse) in Er. by rewrite reverse_involutive in Er. }
  symmetry in Hrev. apply trimStart_head_not_whitespace in Hrev.
  by rewrite Ha, Hrev.
Qed.

(** X1. Every name [extractVariables] returns is normalised: it is not
    empty, neither starts nor ends with whitespace (trimming it again
    changes nothing) and holds no [}]. *)
Theorem extracted_names_normalised (template : jsstring) (h : Heap)
    (vars : list jsstring) (x : jsstring) :
  returns (extractVariables template) h vars → x ∈ vars →
  x ≠ [] ∧ no_outer_whitespace x = true ∧ trim x = x ∧ (rbrace ∉ x).
Proof.
  intros ->%extractVariables_returns Hx.
  apply (proj1 (first_occurrences_elem_of _ _)) in Hx.
  unfold reference_names in Hx.
  apply list_elem_of_filter in Hx as [Hne (g & -> & Hg)%list_elem_of_fmap].
  pose proof (trim_no_outer_whitespace g Hne) as Hn.
  split; [done|]. split; [done|]. split; [by apply trim_fixed|].
  assert (Hr : rbrace ∉ g).
  { unfold interiors in Hg. destruct (scan_wellformed template) as [Hwf _].
    apply list_elem_of_fmap in Hg as ([pre g'] & -> & Hin).
    rewrite Forall_forall in Hwf. by apply (Hwf _ Hin). }
  destruct (trim_split g) as (w1 & w2 & Hs & _). intros Hin. apply Hr.
  rewrite Hs, !elem_of_app. auto.
Qed.

Lemma extracted_names_normalised_witness :
  trim (js "first name") = js "first name".
Proof.
  apply (extracted_names_normalised (js "Dear {  first name }, ...") []
           [js "first name"] (js "first name")).
  - compute_done.
  - compute_done.
Defined.

(** X2. [applyVariables] reads only the entries of the names the template
    refers to: two mappings that agree on the trimmed interior of every
    reference give the same output, whatever else they hold. *)
Theorem applyVariables_reads_referenced_entries (template : jsstring)
    (values1 values2 : gmap jsstring jsstring) (h : Heap) (out : jsstring) :
  (∀ g, g ∈ interiors template → values1 !! trim g = values2 !! trim g) →
  returns (applyVariables template values1) h out →
  returns (applyVariables template values2) h out.
Proof.
  intros Hagree. rewrite !applyVariables_returns. intros ->.
  apply render_ext. intros g Hg. unfold value_for, Get.
  by rewrite (Hagree g Hg).
Qed.

Lemma applyVariables_reads_referenced_entries_witness :
  returns (applyVariables (js "Hi {name}")
             {[ js "name" := js "Ann"; js "other" := js "unused" ]}) []
    (js "Hi Ann").
Proof.
  apply (applyVariables_reads_referenced_entries (js "Hi {name}")
           {[ js "name" := js "Ann" ]}
           {[ js "name" := js "Ann"; js "other" := js "unused" ]} [] (js "Hi Ann")).
  - intros g Hg. assert (g = js "name") as ->; [|compute_done].
    revert Hg. change (interiors (js "Hi {name}")) with [js "name"].
    by intros ->%list_elem_of_singleton.
  - compute_done.
Defined.

(** X3. The wording of the specification (the mapping's value for the
    trimmed name, the empty string when that name is absent or empty) holds
    for a template and a mapping unless a reference with an empty name
    meets an entry for the empty key, or a reference has the name of a
    member every object inherits and the mapping has no entry for it. *)
Theorem applyVariables_as_specified (template : jsstring)
    (values : gmap jsstring jsstring) :
  (∀ g, g ∈ interiors template →
     (trim g = [] → values !! [] = None) ∧
     (values !! trim g = None → Object_prototype !! trim g = None)) →
  replaces_as_specified template values.
Proof.
  intros Hok h. apply applyVariables_returns. apply render_ext.
  intros g Hg. destruct (Hok g Hg) as [Hempty Habsent].
  unfold value_as_specified.
  destruct (values !! trim g) as [v|] eqn:E.
  - rewrite (value_for_own _ _ _ E). destruct (decide (trim g = [])) as [E0|]; [|done].
    rewrite E0, (Hempty E0) in E. done.
  - rewrite value_for_absent by auto. by destruct (decide _).
Qed.

Lemma applyVariables_as_specified_witness :
  replaces_as_specified (js "a { } b {x} {toString}")
    {[ js "x" := js "X"; js "toString" := js "T" ]}.
Proof.
  apply applyVariables_as_specified. intros g.
  change (interiors (js "a { } b {x} {toString}"))
    with [js " "; js "x"; js "toString"].
  rewrite !elem_of_cons, elem_of_nil.
  intros [->|[->|[->|[]]]]; split; compute_done.
Defined.

Lemma render_length (f : jsstring → jsstring)
    (refs : list (jsstring * jsstring)) (tail : jsstring) :
  length (render f refs tail)
  = length (concat refs.*1 ++ tail) + sum_list (length ∘ f <$> refs.*2).
Proof.
  unfold render. induction refs as [|[pre g] refs IH]; [simpl; lia|].
  rewrite !fmap_cons. cbn [foldr concat sum_list fst snd compose].
  rewrite !length_app, IH, !length_app. unfold id. lia.
Qed.

Lemma render_absent (f : jsstring → jsstring)
    (refs : list (jsstring * jsstring)) (tail : jsstring) :
  (∀ g, g ∈ refs.*2 → f g = []) → render f refs tail = concat refs.*1 ++ tail.
Proof.
  unfold render. induction refs as [|[pre g] refs IH]; intros Hf; [done|].
  simpl. rewrite (Hf g) by (simpl; left). rewrite IH.
  - by rewrite <- app_assoc.
  - intros g' Hg'. apply Hf. simpl. by right.
Qed.

(** X4. The output of [applyVariables] is the template's text outside the
    references with the values put in: its length is the length of that
    text plus the lengths of what is put in (the mapping's entry, else the
    text of the inherited member of that name, else nothing), and when no
    referenced name has an entry or is the name of an inherited member the
    output is that text alone (every reference deleted). *)
Theorem applyVariables_output_size (template : jsstring)
    (values : gmap jsstring jsstring) (h : Heap) :
  ∃ out,
    returns (applyVariables template values) h out ∧
    length out = length (literal_text template)
                 + sum_list (length ∘ value_for values <$> interiors template) ∧
    ((∀ g, g ∈ interiors template →
        values !! trim g = None ∧ Object_prototype !! trim g = None) →
     out = literal_text template).
Proof.
  exists (substitute (value_for values) template).
  split; [by apply applyVariables_returns|]. split.
  - apply render_length.
  - intros Hnone. apply render_absent. intros g Hg.
    destruct (Hnone g Hg). by apply value_for_absent.
Qed.

Lemma applyVariables_output_size_witness :
  returns (applyVariables (js "Hi {name}, {greeting}!") ∅) [] (js "Hi , !").
Proof.
  destruct (applyVariables_output_size (js "Hi {name}, {greeting}!") ∅ [])
    as (out & Hout & _ & Hlit).
  rewrite Hlit in Hout; [exact Hout|]. intros g.
  change (interiors (js "Hi {name}, {greeting}!")) with [js "name"; js "greeting"].
  rewrite !elem_of_cons, elem_of_nil. intros [->|[->|[]]]; split; compute_done.
Defined.

Lemma empty_braces_only_tail (c : code_unit) (pre : jsstring) :
  empty_braces_only (c :: pre) → empty_braces_only pre.
Proof. intros H i Hi. by apply (H (S i)). Qed.

Lemma no_reference_after_literal (pre s : jsstring) :
  empty_braces_only pre → next_reference s = None →
  next_reference (pre ++ s) = None.
Proof.
  intros Hpre Hs. induction pre as [|c pre IH]; [done|].
  specialize (IH (empty_braces_only_tail _ _ Hpre)).
  cbn [app next_reference]. rewrite IH. cbn [fmap option_fmap option_map].
  destruct (N.eqb_spec c lbrace) as [->|_]; [|done].
  specialize (Hpre 0 eq_refl). destruct pre as [|d pre]; [done|].
  injection Hpre as ->. cbn [app first_close]. by rewrite N.eqb_refl.
Qed.

Lemma render_no_reference (f : jsstring → jsstring)
    (refs : list (jsstring * jsstring)) (tail : jsstring) :
  Forall (λ '(pre, g), empty_braces_only pre ∧ g ≠ [] ∧ rbrace ∉ g) refs →
  next_reference tail = None →
  (∀ g, g ∈ refs.*2 → lbrace ∉ f g) →
  next_reference (render f refs tail) = None.
Proof.
  unfold render. intros Hrefs Htail.
  induction Hrefs as [|[pre g] refs (Hpre & _ & _) _ IH]; intros Hf; [done|].
  cbn [foldr]. apply no_reference_after_literal; [done|].
  rewrite next_reference_skip by (apply Hf; simpl; left).
  rewrite IH; [done|]. intros g' Hg'. apply Hf. simpl. by right.
Qed.

(** X5. When nothing that is put in (the mapping's entry for a referenced
    name, or the text of the inherited member of that name) holds a [{],
    the output of [applyVariables] holds no reference: applying the same
    mapping again changes nothing, and [extractVariables] finds no variable
    in it. *)
Theorem applyVariables_output_without_references (template : jsstring)
    (values : gmap jsstring jsstring) (h : Heap) :
  (∀ g, g ∈ interiors template → lbrace ∉ value_for values g) →
  ∃ out,
    returns (applyVariables template values) h out ∧
    returns (applyVariables out values) h out ∧
    returns (extractVariables out) h [].
Proof.
  intros Hv. exists (substitute (value_for values) template).
  split; [by apply applyVariables_returns|].
  assert (Hnone : next_reference (substitute (value_for values) template) = None).
  { destruct (scan_wellformed template) as [Hrefs Htail].
    by apply render_no_reference. }
  rewrite applyVariables_returns, extractVariables_returns.
  unfold substitute at 2, reference_names, interiors.
  by rewrite scan_unfold, Hnone.
Qed.

Lemma applyVariables_output_without_references_witness :
  returns (applyVariables (js "Hi Ann {} }") {[ js "name" := js "Ann" ]}) []
    (js "Hi Ann {} }").
Proof.
  destruct (applyVariables_output_without_references (js "Hi {name} {} }")
              {[ js "name" := js "Ann" ]} []) as (out & Hout & Hagain & _).
  - intros g. change (interiors (js "Hi {name} {} }")) with [js "name"].
    intros ->%list_elem_of_singleton. compute_done.
  - vm_compute in Hout. injection Hout as <-. exact Hagain.
Defined.

(** ** PromptEditor: the values of the variables *)

Module PromptEditorFacts.
Import PromptEditor.

Lemma keep_values_lookup (prev : gmap jsstring jsstring)
    (vars : list jsstring) (x : jsstring) :
  keep_values vars prev !! x
  = if decide (x ∈ vars ∧ x ≠ js "__proto__") then Some ((Get prev x) ?? [])
    else None.
Proof.
  unfold keep_values.
  induction vars as [|v vars IH] using rev_ind.
  { rewrite decide_False; [done|]. intros [[]%elem_of_nil _]. }
  rewrite foldl_app. cbn [foldl]. unfold Put at 1.
  set (acc := foldl _ ∅ vars) in *.
  assert (Hproto : acc !! js "__proto__" = None).
  { destruct (decide (x = js "__proto__")) as [->|Hx].
    - rewrite IH. rewrite decide_False; [done|]. tauto.
    - clear IH. unfold acc. clear acc.
      induction vars as [|w vars IHw] using rev_ind; [done|].
      rewrite foldl_app. cbn [foldl]. unfold Put at 1.
      destruct (decide (w = js "__proto__" ∧ _)) as [_|Hn]; [done|].
      rewrite lookup_insert_ne; [done|]. intros ->. apply Hn. by split. }
  destruct (decide (v = js "__proto__" ∧ acc !! v = None)) as [[-> _]|Hn].
  - rewrite IH. apply decide_ext.
    rewrite elem_of_app, list_elem_of_singleton. split; [tauto|].
    intros [[?|?] ?]; [tauto|done].
  - assert (Hv : v ≠ js "__proto__") by (intros ->; apply Hn; by split).
    destruct (decide (v = x)) as [->|Hne].
    + rewrite lookup_insert_eq, decide_True; [done|].
      split; [|done]. rewrite elem_of_app, list_elem_of_singleton. by right.
    + rewrite lookup_insert_ne, IH by done. apply decide_ext.
      rewrite elem_of_app, list_elem_of_singleton. intuition congruence.
Qed.

(** X6. When the template changes, the editor's next mapping has the
    variables of the new template as its keys, except [__proto__], which
    never gets an entry (a value typed for it is lost at the next change).
    A variable that was there keeps its value; a new one gets the empty
    string, unless it has the name of a member every object inherits
    ([constructor], [toString], ...): then it gets that member.  The values
    of variables that are gone are dropped. *)
Theorem on_template_change_keeps_values (template : jsstring)
    (prev : gmap jsstring jsstring) (h : Heap) :
  ∃ vars next,
    returns (extractVariables template) h vars ∧
    returns (on_template_change template prev) h next ∧
    (∀ x v, x ∈ vars → x ≠ js "__proto__" → prev !! x = Some v →
       next !! x = Some v) ∧
    (∀ x, x ∈ vars → x ≠ js "__proto__" → prev !! x = None →
       next !! x = Some (default [] (Object_prototype !! x))) ∧
    (∀ x, x ∉ vars → next !! x = None) ∧
    next !! js "__proto__" = None ∧
    dom next = list_to_set vars ∖ {[ js "__proto__" ]}.
Proof.
  exists (first_occurrences (reference_names template)).
  eexists. split; [by apply extractVariables_returns|].
  split.
  { unfold returns, on_template_change, mbind, JS_bind.
    by rewrite extractVariables_run. }
  split_and!.
  - intros x v Hx Hp Hv. rewrite keep_values_lookup, decide_True by done.
    by rewrite (Get_own _ _ _ Hv).
  - intros x Hx Hp Hv. rewrite keep_values_lookup, decide_True by done.
    by rewrite (Get_inherited _ _ Hv).
  - intros x Hx. rewrite keep_values_lookup, decide_False; [done|]. tauto.
  - rewrite keep_values_lookup, decide_False; [done|]. tauto.
  - apply set_eq. intros x.
    rewrite elem_of_dom, elem_of_difference, elem_of_list_to_set,
      not_elem_of_singleton, keep_values_lookup.
    destruct (decide _) as [|Hn]; [|by split; [intros []|]].
    split; [done|by eexists].
Qed.

(** X7. The preview the editor shows after a template change: every
    reference is replaced by what the mapping before the change gives for
    its name (its entry, else the inherited member of that name, else the
    empty string), with two exceptions: a reference with an empty name is
    replaced by the empty string even when the mapping had an entry for the
    empty key, and [{__proto__}] always by ["[object Object]"]. *)
Theorem preview_after_template_change (template : jsstring)
    (prev : gmap jsstring jsstring) (h : Heap) :
  returns (next ← on_template_change template prev; preview template next) h
    (substitute
       (λ g, if decide (trim g = []) then []
             else if decide (trim g = js "__proto__") then js "[object Object]"
             else value_for prev g) template).
Proof.
  unfold returns, on_template_change, preview, mbind, JS_bind.
  rewrite extractVariables_run. unfold mret, JS_ret.
  rewrite applyVariables_run. cbn [fst]. f_equal. apply render_ext.
  intros g Hg. unfold value_for at 1, Get.
  rewrite keep_values_lookup.
  destruct (decide (trim g = [])) as [E|E].
  - rewrite decide_False.
    + rewrite E. by rewrite Object_prototype_empty_key.
    + rewrite E, first_occurrences_elem_of.
      intros [[]%reference_names_nonempty _].
  - destruct (decide (trim g = js "__proto__")) as [Ep|Ep].
    + rewrite decide_False by tauto. by rewrite Ep.
    + rewrite decide_True; [done|]. split; [|done].
      apply first_occurrences_elem_of.
      unfold reference_names. apply list_elem_of_filter. split; [done|].
      by apply list_elem_of_fmap_2.
Qed.

End PromptEditorFacts.

(** ** PromptEditor: [handleSave] *)

Module PromptEditorSaveFacts.
Import PromptReducer.
Import PromptEditorSave.

Lemma whitespace_no_lbrace (w : jsstring) :
  forallb is_whitespace w = true → lbrace ∉ w.
Proof.
  intros Hw Hin. rewrite forallb_forall in Hw.
  by apply list_elem_of_In, Hw in Hin.
Qed.

(** X28. What [handleSave] hands to [onSave] has a title and a template
    that are not empty and neither start nor end with whitespace.  Trimming
    the template loses no variable: the saved template has the variables of
    the edited one, in the same order, and applied to any values it gives
    the preview of the edited one without the whitespace around it. *)
Theorem handleSave_keeps_variables (title category template : jsstring)
    (data : PromptFormData) (values : gmap jsstring jsstring) (h : Heap) :
  handleSave title category template = onSave data →
  data_title data ≠ [] ∧ no_outer_whitespace (data_title data) = true ∧
  data_template data ≠ [] ∧ no_outer_whitespace (data_template data) = true ∧
  (extractVariables (data_template data) h).1 = (extractVariables template h).1 ∧
  ∃ w1 w2 out,
    forallb is_whitespace w1 = true ∧ forallb is_whitespace w2 = true ∧
    returns (applyVariables (data_template data) values) h out ∧
    returns (applyVariables template values) h (w1 ++ out ++ w2).
Proof.
  unfold handleSave.
  destruct (trim title) as [|a t] eqn:Et; [done|].
  destruct (trim template) as [|b u] eqn:Eu; [done|].
  cbn [truthy negb]. intros [= <-]. cbn [data_title data_template].
  rewrite <- Et, <- Eu.
  destruct (trim_split template) as (w1 & w2 & Hsplit & Hw1 & Hw2).
  split_and!.
  - by rewrite Et.
  - apply trim_no_outer_whitespace. by rewrite Et.
  - by rewrite Eu.
  - apply trim_no_outer_whitespace. by rewrite Eu.
  - rewrite !extractVariables_run. cbn [fst]. do 2 f_equal.
    rewrite Hsplit at 2.
    rewrite reference_names_skip by (by apply whitespace_no_lbrace).
    by rewrite reference_names_app_tail by (by apply whitespace_no_rbrace).
  - exists w1, w2, (substitute (value_for values) (trim template)).
    split_and!; [done|done|by apply applyVariables_returns|].
    apply applyVariables_returns. rewrite Hsplit at 2.
    rewrite substitute_skip by (by apply whitespace_no_lbrace).
    by rewrite substitute_app_tail by (by apply whitespace_no_rbrace).
Qed.

Lemma handleSave_keeps_variables_witness :
  (extractVariables (js "Hi {name}") []).1
  = (extractVariables (js "  Hi {name} ") []).1.
Proof.
  pose proof (handleSave_keeps_variables (js " Greeting") (js "Other")
                (js "  Hi {name} ")
                {| data_title := js "Greeting"; data_category := js "Other";
                   data_template := js "Hi {name}" |} ∅ [] eq_refl) as H.
  exact (proj1 (proj2 (proj2 (proj2 (proj2 H))))).
Defined.

End PromptEditorSaveFacts.

(** ** promptReducer.ts *)

Module PromptReducerFacts.
Import PromptReducer.

Lemma fmap_filter_sublist {A B} (f : A → B) (P : A → Prop)
    `{!∀ x, Decision (P x)} (l : list A) :
  f <$> filter P l `sublist_of` f <$> l.
Proof.
  induction l as [|x l IH]; [done|]. rewrite filter_cons, !fmap_cons.
  destruct (decide (P x)); [by apply sublist_skip|by apply sublist_cons].
Qed.

(** X8. [DELETE_PROMPT] removes every prompt with the given id and nothing
    else: the other prompts stay, in their order; deleting an id no prompt
    has changes nothing, and so does deleting it a second time. *)
Theorem delete_prompt_removes_id (env env' : Env) (state : PromptState)
    (i : jsstring) :
  let state' := promptReducer env state (DELETE_PROMPT i) in
  (∀ p, p ∈ prompts state' ↔ p ∈ prompts state ∧ id p ≠ i) ∧
  prompts state' `sublist_of` prompts state ∧
  isLoading state' = isLoading state ∧
  (i ∉ id <$> prompts state → state' = state) ∧
  promptReducer env' state' (DELETE_PROMPT i) = state'.
Proof.
  destruct state as [ps l]. simpl. split_and!.
  - intros p. rewrite list_elem_of_filter. tauto.
  - apply sublist_filter.
  - done.
  - intros Hi. f_equal. induction ps as [|p ps IH]; [done|].
    rewrite fmap_cons, not_elem_of_cons in Hi. destruct Hi as [Hp Hps].
    rewrite filter_cons_True by done. by rewrite IH.
  - f_equal. apply list_filter_filter_l. done.
Qed.

Lemma update_lookup (env : Env) (state : PromptState) (i : jsstring)
    (data : PromptFormData) (k : nat) :
  prompts (promptReducer env state (UPDATE_PROMPT i data)) !! k
  = (λ p, if decide (id p = i) then with_data p data (Date_now env k) else p)
      <$> prompts state !! k.
Proof. cbn [promptReducer prompts]. by rewrite list_lookup_imap. Qed.

Lemma update_ids (env : Env) (state : PromptState) (i : jsstring)
    (data : PromptFormData) :
  id <$> prompts (promptReducer env state (UPDATE_PROMPT i data))
  = id <$> prompts state.
Proof.
  apply list_eq. intros k. rewrite !list_lookup_fmap, update_lookup.
  destruct (prompts state !! k) as [p|]; [|done]. simpl. by destruct (decide _).
Qed.

(** X9. [UPDATE_PROMPT] rewrites in place: the list keeps its length, and at
    every position the prompt keeps its id and its creation time; a prompt
    with another id is unchanged, a prompt with the given id gets the form
    data and a new update time.  Updating an id no prompt has changes
    nothing. *)
Theorem update_prompt_in_place (env : Env) (state : PromptState)
    (i : jsstring) (data : PromptFormData) :
  let state' := promptReducer env state (UPDATE_PROMPT i data) in
  length (prompts state') = length (prompts state) ∧
  id <$> prompts state' = id <$> prompts state ∧
  createdAt <$> prompts state' = createdAt <$> prompts state ∧
  (∀ k p, prompts state !! k = Some p →
     prompts state' !! k
     = Some (if decide (id p = i) then with_data p data (Date_now env k) else p)) ∧
  isLoading state' = isLoading state ∧
  (i ∉ id <$> prompts state → state' = state).
Proof.
  destruct state as [ps l]. cbn [promptReducer prompts isLoading].
  assert (Hk : ∀ k p, ps !! k = Some p →
    imap (λ k p, if decide (id p = i) then with_data p data (Date_now env k) else p) ps !! k
    = Some (if decide (id p = i) then with_data p data (Date_now env k) else p)).
  { intros k p Hp. by rewrite list_lookup_imap, Hp. }
  split_and!.
  - apply length_imap.
  - apply (update_ids env {| prompts := ps; isLoading := l |}).
  - apply list_eq. intros k. rewrite !list_lookup_fmap, list_lookup_imap.
    destruct (ps !! k) as [p|]; [|done]. simpl. by destruct (decide _).
  - done.
  - done.
  - intros Hi. f_equal. apply list_eq. intros k. rewrite list_lookup_imap.
    destruct (ps !! k) as [p|] eqn:Hp; [|done]. simpl.
    rewrite decide_False; [done|]. intros <-. apply Hi.
    apply list_elem_of_fmap. exists p. split; [done|].
    by eapply list_elem_of_lookup_2.
Qed.

(** X10. The reducer keeps the ids of the prompts distinct, provided
    [generateId] returns an id no prompt has and loaded or imported lists
    have distinct ids: it never checks either itself. *)
Theorem reducer_keeps_ids_distinct (env : Env) (state : PromptState)
    (action : PromptAction) :
  NoDup (id <$> prompts state) → keeps_ids_distinct env state action →
  NoDup (id <$> prompts (promptReducer env state action)).
Proof.
  intros Hnd Hok. destruct action as [|payload| |payload|i data|i|payload];
    try done.
  - cbn [promptReducer prompts]. rewrite fmap_app. apply NoDup_app.
    split; [done|]. split; [|apply NoDup_singleton].
    intros x Hx ->%list_elem_of_singleton. by apply Hok.
  - by rewrite update_ids.
  - cbn [promptReducer prompts].
    eapply sublist_NoDup; [done|apply fmap_filter_sublist].
Qed.

Lemma reducer_keeps_ids_distinct_witness :
  NoDup (id <$> prompts (promptReducer
           {| generateId := js "id-3"; Date_now := λ _, 1700000000000%Z |}
           {| prompts :=
                [{| id := js "id-1"; title := js "Greeting";
                    category := js "Writing"; template := js "Hi {name}";
                    createdAt := 1; updatedAt := 2 |};
                 {| id := js "id-2"; title := js "Review";
                    category := js "Coding"; template := js "Review {code}";
                    createdAt := 3; updatedAt := 3 |}];
              isLoading := false |}
           (ADD_PROMPT {| data_title := js "Slogan";
                          data_category := js "Marketing";
                          data_template := js "Sell {product}" |}))).
Proof.
  apply reducer_keeps_ids_distinct.
  - compute_done.
  - compute_done.
Defined.

(** X11. Adding a prompt and then deleting the id it was given restores the
    list, provided the generated id was not in use; the delete removes
    exactly the prompt that was added. *)
Theorem add_then_delete (env env' : Env) (state : PromptState)
    (data : PromptFormData) :
  generateId env ∉ id <$> prompts state →
  promptReducer env' (promptReducer env state (ADD_PROMPT data))
    (DELETE_PROMPT (generateId env)) = state.
Proof.
  intros Hfresh. destruct state as [ps l]. cbn [promptReducer prompts isLoading].
  f_equal. rewrite filter_app, filter_cons_False, filter_nil, app_nil_r by (simpl; tauto).
  cbn [prompts] in Hfresh. induction ps as [|p ps IH]; [done|].
  rewrite fmap_cons, not_elem_of_cons in Hfresh. destruct Hfresh as [Hp Hps].
  rewrite filter_cons_True by (simpl; congruence). by rewrite IH.
Qed.

Lemma add_then_delete_witness :
  let state :=
    {| prompts :=
         [{| id := js "id-1"; title := js "Greeting";
             category := js "Writing"; template := js "Hi {name}";
             createdAt := 1; updatedAt := 2 |};
          {| id := js "id-2"; title := js "Review";
             category := js "Coding"; template := js "Review {code}";
             createdAt := 3; updatedAt := 3 |}];
       isLoading := false |} in
  promptReducer {| generateId := js "id-4"; Date_now := λ _, 5%Z |}
    (promptReducer {| generateId := js "id-3"; Date_now := λ _, 4%Z |}
       state
       (ADD_PROMPT {| data_title := js "Slogan";
                      data_category := js "Marketing";
                      data_template := js "Sell {product}" |}))
    (DELETE_PROMPT (js "id-3")) = state.
Proof.
  intros state.
  apply (add_then_delete {| generateId := js "id-3"; Date_now := λ _, 4%Z |}).
  compute_done.
Defined.

(** X12. No prompt is updated before it is created: if that holds in the
    state and every clock reading of the call is not before the creation
    time of the prompt it is taken for, it holds after every action that
    builds on the list of the state. *)
Theorem reducer_keeps_time_order (env : Env) (state : PromptState)
    (action : PromptAction) :
  Forall (λ p, (createdAt p ≤ updatedAt p)%Z) (prompts state) →
  (∀ k p, prompts state !! k = Some p → (createdAt p ≤ Date_now env k)%Z) →
  edits_list action = true →
  Forall (λ p, (createdAt p ≤ updatedAt p)%Z)
    (prompts (promptReducer env state action)).
Proof.
  intros Hinv Hclock Hedit.
  destruct action as [|payload| |payload|i data|i|payload]; try done.
  - cbn [promptReducer prompts]. apply Forall_app. split; [done|].
    apply Forall_singleton. simpl. lia.
  - apply Forall_lookup. intros k p' Hk. rewrite update_lookup in Hk.
    destruct (prompts state !! k) as [p|] eqn:Hp; [|done].
    injection Hk as <-.
    destruct (decide (id p = i)); [simpl; by apply Hclock|].
    by eapply (proj1 (Forall_lookup _ _) Hinv).
  - cbn [promptReducer prompts]. rewrite Forall_forall in Hinv |- *.
    intros p [_ Hp]%list_elem_of_filter. by apply Hinv.
Qed.

Lemma reducer_keeps_time_order_witness :
  Forall (λ p, (createdAt p ≤ updatedAt p)%Z)
    (prompts (promptReducer
       {| generateId := js "id-3"; Date_now := λ k, (10 + Z.of_nat k)%Z |}
       {| prompts :=
            [{| id := js "id-1"; title := js "Greeting";
                category := js "Writing"; template := js "Hi {name}";
                createdAt := 1; updatedAt := 2 |};
             {| id := js "id-2"; title := js "Review";
                category := js "Coding"; template := js "Review {code}";
                createdAt := 3; updatedAt := 3 |}];
          isLoading := false |}
       (UPDATE_PROMPT (js "id-2")
          {| data_title := js "Code review";
             data_category := js "Coding";
             data_template := js "Review {code} for {language}" |}))).
Proof.
  apply reducer_keeps_time_order.
  - repeat constructor; simpl; lia.
  - intros [|[|k]] p; simpl; intros [= <-]; simpl; lia.
  - reflexivity.
Defined.

Lemma not_in_existing_ids (state_prompts : list Prompt) (p : Prompt) :
  id p ∉ (list_to_set (id <$> state_prompts) : gset jsstring)
  ↔ id p ∉ id <$> state_prompts.
Proof. by rewrite elem_of_list_to_set. Qed.

(** X13. Merging an import ([Cancel] in [handleImport]) keeps every prompt
    of the state first and in order, and appends the imported prompts whose
    id no prompt of the state has; a prompt of the file whose id exists
    already is ignored.  If the ids were distinct in the state and in the
    file they are distinct in the result, and nothing is dispatched exactly
    when every id of the file exists already. *)
Theorem handleImport_merge (state_prompts imported : list Prompt) :
  match handleImport_payload state_prompts imported false with
  | Some merged =>
      merged = state_prompts
               ++ filter (λ p, id p ∉ id <$> state_prompts) imported ∧
      (∃ p, p ∈ imported ∧ (id p ∉ id <$> state_prompts)) ∧
      (∀ p, p ∈ imported → id p ∈ id <$> merged) ∧
      (NoDup (id <$> state_prompts) → NoDup (id <$> imported) →
       NoDup (id <$> merged))
  | None => ∀ p, p ∈ imported → id p ∈ id <$> state_prompts
  end.
Proof.
  unfold handleImport_payload.
  assert (Hf : filter (λ p, id p ∉ (list_to_set (id <$> state_prompts) : gset jsstring))
                 imported
               = filter (λ p, id p ∉ id <$> state_prompts) imported).
  { apply list_filter_iff. intros p. apply not_in_existing_ids. }
  rewrite Hf. clear Hf.
  assert (Hnew : ∀ p, p ∈ filter (λ p, id p ∉ id <$> state_prompts) imported
                      ↔ (id p ∉ id <$> state_prompts) ∧ p ∈ imported).
  { intros p. apply (list_elem_of_filter (λ p, id p ∉ id <$> state_prompts)). }
  destruct (decide (0 < length _)) as [Hpos|Hzero].
  - split_and!.
    + done.
    + destruct (filter _ imported) as [|p new'] eqn:E; [simpl in Hpos; lia|].
      exists p. apply and_comm, Hnew. left.
    + intros p Hp. rewrite fmap_app, elem_of_app.
      destruct (decide (id p ∈ id <$> state_prompts)) as [|Hn]; [by left|].
      right. apply list_elem_of_fmap_2. by apply Hnew.
    + intros Hnd1 Hnd2. rewrite fmap_app. apply NoDup_app. split; [done|].
      split.
      * intros x Hx (p & -> & Hp)%list_elem_of_fmap.
        by apply Hnew in Hp as [Hn _].
      * eapply sublist_NoDup; [done|apply fmap_filter_sublist].
  - intros p Hp. destruct (decide (id p ∈ id <$> state_prompts)) as [|Hn]; [done|].
    assert (Hin : p ∈ filter (λ p, id p ∉ id <$> state_prompts) imported)
      by (by apply Hnew).
    destruct (filter _ imported); [by apply elem_of_nil in Hin|simpl in Hzero; lia].
Qed.

End PromptReducerFacts.

(** ** exportImport.ts *)

Module ExportImportFacts.
Import ErrorHandler.
Import PromptReducer.
Import ExportImport.

Lemma validatePromptsArray_ok (prompts : list json) (now : Z)
    (stack' : option jsstring) (handler : state) :
  filter (λ item, is_prompt item = true) prompts ≠ [] →
  validatePromptsArray prompts now stack' handler
  = (inr (filter (λ item, is_prompt item = true) prompts), handler).
Proof.
  intros Hne. unfold validatePromptsArray.
  destruct (decide _) as [Hz|_]; [|done]. by apply nil_length_inv in Hz.
Qed.

Lemma validatePromptsArray_none (prompts : list json) (now : Z)
    (stack' : option jsstring) (handler : state) :
  filter (λ item, is_prompt item = true) prompts = [] →
  validatePromptsArray prompts now stack' handler
  = (inl (new_Error (js "No valid prompts found in file") stack'),
     handleImportExportError handler
       (AnError (new_Error (js "No valid prompts found in file") stack'))
       (js "import")
       (with_metadata [(js "totalItems", js (pretty (length prompts)))])
       now stack').
Proof.
  intros Hnil. unfold validatePromptsArray. rewrite Hnil.
  by rewrite decide_True.
Qed.

(** X17. [validatePromptsArray] returns exactly the items that pass its
    test, in their order, and never an empty list; the handler is not
    touched.  When no item passes (an empty array included) it throws
    "No valid prompts found in file" after logging that error once, as a
    VALIDATION error of the import with the number of items. *)
Theorem validatePromptsArray_result (prompts : list json) (now : Z)
    (stack' : option jsstring) (handler : state) :
  match validatePromptsArray prompts now stack' handler with
  | (inr valid, handler') =>
      valid = filter (λ item, is_prompt item = true) prompts ∧
      valid ≠ [] ∧ valid `sublist_of` prompts ∧ handler' = handler
  | (inl error, handler') =>
      Forall (λ item, is_prompt item = false) prompts ∧
      Error_message error = js "No valid prompts found in file" ∧
      ∃ c, handler' = logError handler c ∧
           arg_error c = AnError error ∧
           arg_category c = Some VALIDATION ∧
           (arg_context c ≫= action) = Some (js "import") ∧
           (arg_context c ≫= metadata)
           = Some [(js "totalItems", js (pretty (length prompts)))]
  end.
Proof.
  destruct (filter (λ item, is_prompt item = true) prompts) as [|v valid] eqn:E.
  - rewrite validatePromptsArray_none by done. split_and!.
    + apply Forall_forall. intros item Hitem.
      destruct (is_prompt item) eqn:Hp; [|done].
      assert (Hin : item ∈ filter (λ item, is_prompt item = true) prompts)
        by (by apply list_elem_of_filter).
      rewrite E in Hin. by apply elem_of_nil in Hin.
    + done.
    + by eexists.
  - rewrite validatePromptsArray_ok by (by rewrite E). rewrite E.
    split_and!; [done|done| |done]. rewrite <- E. apply sublist_filter.
Qed.

(** X18. [validateImportData] takes the prompts from an object with a
    [prompts] array or from a bare array, with the same result.  Anything
    that is not an object or an array is rejected with "Invalid file format:
    expected JSON object", and an object without a [prompts] array with
    "Invalid file format: expected prompts array or export object"; each
    rejection is logged once. *)
Theorem validateImportData_formats (now : Z) (stack' : option jsstring)
    (handler : state) :
  (∀ fields prompts,
     get (JObject fields) (js "prompts") = Some (JArray prompts) →
     validateImportData (JObject fields) now stack' handler
     = validatePromptsArray prompts now stack' handler) ∧
  (∀ prompts,
     validateImportData (JArray prompts) now stack' handler
     = validatePromptsArray prompts now stack' handler) ∧
  (∀ data,
     isArray data = false → (∀ fields, data ≠ JObject fields) →
     ∃ error c,
       validateImportData data now stack' handler = (inl error, logError handler c) ∧
       Error_message error = js "Invalid file format: expected JSON object" ∧
       arg_error c = AnError error) ∧
  (∀ fields,
     (∀ prompts, get (JObject fields) (js "prompts") ≠ Some (JArray prompts)) →
     ∃ error c,
       validateImportData (JObject fields) now stack' handler
       = (inl error, logError handler c) ∧
       Error_message error
       = js "Invalid file format: expected prompts array or export object" ∧
       arg_error c = AnError error).
Proof.
  split_and!.
  - intros fields prompts Hget. unfold validateImportData. by rewrite Hget.
  - done.
  - intros data Harr Hobj. unfold validateImportData.
    assert (negb (truthy_value data) || negb (bool_decide (typeof data = js "object"))
            = true) as ->; [|by eexists _, _].
    destruct data as [|b|n|s|items|fields]; try done.
    + apply orb_true_r.
    + apply orb_true_r.
    + apply orb_true_r.
    + by destruct (Hobj fields).
  - intros fields Hno. unfold validateImportData. cbn [truthy_value typeof].
    rewrite bool_decide_eq_true_2 by done. cbn [negb orb].
    destruct (get (JObject fields) (js "prompts")) as [[| | | |prompts|]|] eqn:E;
      try (by eexists _, _). by destruct (Hno prompts).
Qed.

Lemma validateImportData_formats_witness :
  validateImportData
    (JObject [(js "version", JString (js "1.0")); (js "prompts", JArray [])])
    0 None new
  = validatePromptsArray [] 0 None new.
Proof.
  apply (proj1 (validateImportData_formats 0 None new)). reflexivity.
Defined.

Lemma is_prompt_to_json (p : Prompt) : is_prompt (to_json p) = true.
Proof. reflexivity. Qed.

Lemma as_Prompt_to_json (p : Prompt) : as_Prompt (to_json p) = Some p.
Proof. by destruct p. Qed.

Lemma filter_is_prompt_to_json (ps : list Prompt) :
  filter (λ item, is_prompt item = true) (to_json <$> ps) = to_json <$> ps.
Proof.
  induction ps as [|p ps IH]; [done|]. rewrite fmap_cons.
  rewrite filter_cons_True by apply is_prompt_to_json. by rewrite IH.
Qed.

Section JSON.
Variable JSON_stringify : json → jsstring.
Variable JSON_parse : jsstring → Error + json.

(** X19. Export and import fit together when there is something to export:
    if [JSON.parse] gives back the object [exportPrompts] serialised, the
    import of the exported text resolves with the exported prompts, in
    order and field by field, whatever their categories and time stamps
    are (the import checks only the types of the members), and logs
    nothing.  The export of an empty list is rejected by the import with
    "No valid prompts found in file". *)
Theorem export_then_import (prompts : list Prompt) (exportedAt : Z)
    (file_name : jsstring) (file_size : nat) (now now' : Z)
    (stack' : option jsstring) (handler : state) :
  JSON_parse (exportPrompts JSON_stringify prompts exportedAt)
  = inr (ExportData prompts exportedAt) →
  let r := onload JSON_parse file_name file_size
             (Text (exportPrompts JSON_stringify prompts exportedAt))
             now now' stack' handler in
  (prompts ≠ [] →
     r = (resolve (to_json <$> prompts), handler) ∧
     as_Prompt <$> (to_json <$> prompts) = Some <$> prompts) ∧
  (prompts = [] →
     ∃ error handler', r = (reject error, handler') ∧
       Error_message error = js "No valid prompts found in file").
Proof.
  intros Hparse r. subst r. unfold onload. rewrite Hparse.
  assert (Hv : validateImportData (ExportData prompts exportedAt) now stack' handler
               = validatePromptsArray (to_json <$> prompts) now stack' handler)
    by done.
  rewrite Hv. split.
  - intros Hne. rewrite validatePromptsArray_ok; rewrite filter_is_prompt_to_json.
    + split; [done|]. rewrite <- list_fmap_compose. apply list_fmap_ext.
      intros _ p _. apply as_Prompt_to_json.
    + by destruct prompts.
  - intros ->. rewrite validatePromptsArray_none by done. by eexists _, _.
Qed.

(** X20. [onload] resolves only with a list that is not empty and holds
    nothing but items that pass the test, and then logs nothing; every
    rejection is logged with the error it rejects with: once when the
    result is not text or [JSON.parse] throws, twice when the parsed data
    fails the validation (once in [validateImportData], once more in the
    [catch] of [onload]). *)
Theorem onload_outcomes (file_name : jsstring) (file_size : nat)
    (result : reader_result) (now now' : Z) (stack' : option jsstring)
    (handler : state) :
  match onload JSON_parse file_name file_size result now now' stack' handler with
  | (resolve prompts, handler') =>
      prompts ≠ [] ∧ Forall (λ item, is_prompt item = true) prompts ∧
      handler' = handler
  | (reject error, handler') =>
      match result with
      | Text text =>
          match JSON_parse text with
          | inl syntax_error =>
              error = syntax_error ∧
              ∃ c, handler' = logError handler c ∧ arg_error c = AnError error
          | inr _ =>
              ∃ c c', handler' = logError (logError handler c) c' ∧
                arg_error c = AnError error ∧ arg_error c' = AnError error ∧
                ErrorHandler.Date_now c = now ∧ ErrorHandler.Date_now c' = now'
          end
      | NotText _ =>
          Error_message error = js "Failed to read file" ∧
          ∃ c, handler' = logError handler c ∧ arg_error c = AnError error
      end
  end.
Proof.
  unfold onload. destruct result as [text|type]; [|by split; [|eexists]].
  destruct (JSON_parse text) as [syntax_error|data]; [by split; [|eexists]|].
  assert (Hitems : ∀ items,
    match validatePromptsArray items now stack' handler with
    | (inr prompts, handler') =>
        prompts ≠ [] ∧ Forall (λ item, is_prompt item = true) prompts ∧
        handler' = handler
    | (inl error, handler') =>
        ∃ c, handler' = logError handler c ∧ arg_error c = AnError error ∧
             ErrorHandler.Date_now c = now
    end).
  { intros items.
    destruct (filter (λ item, is_prompt item = true) items) as [|v valid] eqn:E.
    - rewrite validatePromptsArray_none by done. by eexists.
    - rewrite validatePromptsArray_ok by (by rewrite E). rewrite E.
      split; [done|]. split; [|done]. rewrite <- E.
      apply Forall_forall. by intros item [? _]%list_elem_of_filter. }
  assert (Hdata :
    match validateImportData data now stack' handler with
    | (inr prompts, handler') =>
        prompts ≠ [] ∧ Forall (λ item, is_prompt item = true) prompts ∧
        handler' = handler
    | (inl error, handler') =>
        ∃ c, handler' = logError handler c ∧ arg_error c = AnError error ∧
             ErrorHandler.Date_now c = now
    end).
  { unfold validateImportData.
    destruct (negb (truthy_value data) || _); [by eexists|].
    destruct (get data (js "prompts")) as [[| | | |prompts|]|];
      try apply Hitems; destruct data; try apply Hitems; by eexists. }
  destruct (validateImportData data now stack' handler) as [[error|prompts] handler'].
  - destruct Hdata as (c & -> & Hc & Hnow). exists c. by eexists.
  - done.
Qed.
End JSON.

Lemma export_then_import_witness :
  let prompts :=
    [{| id := js "id-1"; title := js "Greeting"; category := js "Other";
        template := js "Hello {name}"; createdAt := 1; updatedAt := 2 |}] in
  let JSON_stringify := λ _ : json, js "{}" in
  let JSON_parse := λ _ : jsstring, inr (ExportData prompts 5) : Error + json in
  onload JSON_parse (js "prompts.json") 2
    (Text (exportPrompts JSON_stringify prompts 5)) 6 7 None new
  = (resolve (to_json <$> prompts), new).
Proof.
  intros prompts JSON_stringify JSON_parse.
  apply (export_then_import JSON_stringify JSON_parse prompts 5
           (js "prompts.json") 2 6 7 None new); done.
Defined.

End ExportImportFacts.

(** ** Pagination.tsx *)

Module PaginationFacts.
Import Pagination.
#[local] Open Scope Z_scope.

Lemma push_range_3 (lo : Z) :
  push_range lo (lo + 2) = [Number lo; Number (lo + 1); Number (lo + 2)].
Proof.
  unfold push_range. replace (lo + 2 - lo + 1) with 3 by lia.
  rewrite !seqZ_cons by lia. rewrite seqZ_nil by lia. cbn.
  repeat f_equal; lia.
Qed.

Lemma push_range_4 (lo : Z) :
  push_range lo (lo + 3)
  = [Number lo; Number (lo + 1); Number (lo + 2); Number (lo + 3)].
Proof.
  unfold push_range. replace (lo + 3 - lo + 1) with 4 by lia.
  rewrite !seqZ_cons by lia. rewrite seqZ_nil by lia. cbn.
  repeat f_equal; lia.
Qed.

Lemma getPageNumbers_cases (currentPage totalPages : Z) :
  1 ≤ totalPages →
  (totalPages ≤ 5 ∧
   getPageNumbers currentPage totalPages = push_range 1 totalPages) ∨
  (5 < totalPages ∧ currentPage ≤ 3 ∧
   getPageNumbers currentPage totalPages
   = [Number 1; Number 2; Number 3; Number 4; Dots; Number totalPages]) ∨
  (5 < totalPages ∧ 3 < currentPage ∧ totalPages - 2 ≤ currentPage ∧
   getPageNumbers currentPage totalPages
   = [Number 1; Dots; Number (totalPages - 3); Number (totalPages - 3 + 1);
      Number (totalPages - 3 + 2); Number (totalPages - 3 + 3)]) ∨
  (5 < totalPages ∧ 3 < currentPage < totalPages - 2 ∧
   getPageNumbers currentPage totalPages
   = [Number 1; Dots; Number (currentPage - 1); Number (currentPage - 1 + 1);
      Number (currentPage - 1 + 2); Dots; Number totalPages]).
Proof.
  intros Htotal. unfold getPageNumbers.
  destruct (Z.leb_spec totalPages 5); [by left|]. right.
  destruct (Z.leb_spec currentPage 3); [by left|]. right.
  destruct (Z.geb_spec currentPage (totalPages - 2)).
  - left. split_and!; [lia..|].
    replace totalPages with (totalPages - 3 + 3) at 2 by lia.
    by rewrite push_range_4.
  - right. split_and!; [lia..|].
    replace (currentPage + 1) with (currentPage - 1 + 2) by lia.
    by rewrite push_range_3.
Qed.



(** X22. The current page, when it is one of the pages, has a button, and
    so have the pages next to it. *)
Theorem getPageNumbers_shows_current (currentPage totalPages page : Z) :
  1 ≤ currentPage ≤ totalPages →
  1 ≤ page ≤ totalPages →
  currentPage - 1 ≤ page ≤ currentPage + 1 →
  Number page ∈ getPageNumbers currentPage totalPages.
Proof.
  intros Hcurrent Hpage Hnear.
  destruct (getPageNumbers_cases currentPage totalPages ltac:(lia))
    as [[Hle ->]|[(? & ? & ->)|[(? & ? & ? & ->)|(? & ? & ->)]]].
  - unfold push_range. apply list_elem_of_fmap_2, elem_of_seqZ. lia.
  - assert (page = 1 ∨ page = 2 ∨ page = 3 ∨ page = 4) as Hcases by lia.
    destruct_or!; subst page; rewrite !elem_of_cons; auto 10.
  - assert (page = totalPages - 3 ∨ page = totalPages - 3 + 1 ∨
            page = totalPages - 3 + 2 ∨ page = totalPages - 3 + 3)
      as Hcases by lia.
    destruct_or!; subst page; rewrite !elem_of_cons; auto 10.
  - assert (page = currentPage - 1 ∨ page = currentPage - 1 + 1 ∨
            page = currentPage - 1 + 2) as Hcases by lia.
    destruct_or!; subst page; rewrite !elem_of_cons; auto 10.
Qed.

Lemma getPageNumbers_shows_current_witness :
  Number 7 ∈ getPageNumbers 7 20.
Proof. apply getPageNumbers_shows_current; lia. Defined.

End PaginationFacts.

(** ** PromptList.tsx *)

Module PromptListFacts.
Import PromptList.
#[local] Open Scope Z_scope.

Lemma Math_ceil_div_bounds (a b : Z) :
  0 < b → (Math_ceil_div a b - 1) * b < a ≤ Math_ceil_div a b * b.
Proof.
  intros Hb. unfold Math_ceil_div.
  pose proof (Z.mul_div_le (- a) b Hb).
  pose proof (Z.mul_succ_div_gt (- a) b Hb). nia.
Qed.

Lemma paginatedPrompts_take_drop {A} (filteredPrompts : list A)
    (currentPage pageSize : Z) :
  1 ≤ currentPage → 0 < pageSize →
  paginatedPrompts filteredPrompts currentPage pageSize
  = take (Z.to_nat pageSize)
      (drop (Z.to_nat ((currentPage - 1) * pageSize)) filteredPrompts).
Proof.
  intros Hpage Hsize. unfold paginatedPrompts, slice_range.
  set (start := (currentPage - 1) * pageSize).
  assert (0 ≤ start) by (unfold start; nia).
  rewrite (proj2 (Z.ltb_ge start 0)) by lia.
  rewrite (proj2 (Z.ltb_ge (start + pageSize) 0)) by lia.
  destruct (Z.le_gt_cases (Z.of_nat (length filteredPrompts)) start).
  - rewrite Z.min_r by lia. rewrite !drop_ge by lia. by rewrite !take_nil.
  - rewrite (Z.min_l start) by lia.
    destruct (Z.le_gt_cases (start + pageSize) (Z.of_nat (length filteredPrompts))).
    + rewrite Z.min_l by lia. do 2 f_equal. lia.
    + rewrite Z.min_r by lia.
      rewrite !take_ge; [done|rewrite length_drop; lia..].
Qed.

Lemma concat_pages {A} (l : list A) (n k : nat) :
  concat ((λ i, take n (drop (i * n) l)) <$> seq 0 k) = take (k * n) l.
Proof.
  induction k as [|k IH]; [done|].
  rewrite seq_S, fmap_app, concat_app, IH. cbn [fmap list_fmap concat].
  rewrite app_nil_r, take_take_drop. f_equal. lia.
Qed.

(** X23. For a positive page size the pages 1 to [totalPages], one after
    the other, are the filtered list: every prompt is on exactly one page,
    in the order of the list. *)
Theorem pages_partition {A} (filteredPrompts : list A) (pageSize : Z) :
  0 < pageSize →
  concat ((λ currentPage, paginatedPrompts filteredPrompts currentPage pageSize)
          <$> seqZ 1 (totalPages filteredPrompts pageSize))
  = filteredPrompts.
Proof.
  intros Hsize.
  pose proof (Math_ceil_div_bounds (Z.of_nat (length filteredPrompts)) pageSize Hsize) as Hb.
  fold (totalPages filteredPrompts pageSize) in Hb.
  unfold seqZ. rewrite <- list_fmap_compose.
  rewrite (list_fmap_ext _
    (λ i, take (Z.to_nat pageSize) (drop (i * Z.to_nat pageSize) filteredPrompts))).
  - rewrite concat_pages. apply take_ge. nia.
  - intros _ i _. cbn [compose].
    rewrite paginatedPrompts_take_drop by lia. do 2 f_equal. nia.
Qed.

Lemma pages_partition_witness :
  concat ((λ currentPage, paginatedPrompts [1; 2; 3; 4; 5] currentPage 2)
          <$> seqZ 1 (totalPages [1; 2; 3; 4; 5] 2))
  = [1; 2; 3; 4; 5].
Proof. apply pages_partition. lia. Defined.

(** X24. For a positive page size a page holds at most [pageSize] prompts;
    a list that is not empty has at least one page, and each of the pages
    1 to [totalPages] shows something; a current page beyond [totalPages]
    (as after prompts were deleted while a later page was shown) shows
    nothing. *)
Theorem page_bounds {A} (filteredPrompts : list A)
    (currentPage pageSize : Z) :
  0 < pageSize → 1 ≤ currentPage →
  Z.of_nat (length (paginatedPrompts filteredPrompts currentPage pageSize))
  ≤ pageSize ∧
  (filteredPrompts ≠ [] → 1 ≤ totalPages filteredPrompts pageSize) ∧
  (currentPage ≤ totalPages filteredPrompts pageSize →
   paginatedPrompts filteredPrompts currentPage pageSize ≠ []) ∧
  (totalPages filteredPrompts pageSize < currentPage →
   paginatedPrompts filteredPrompts currentPage pageSize = []).
Proof.
  intros Hsize Hpage.
  pose proof (Math_ceil_div_bounds (Z.of_nat (length filteredPrompts)) pageSize Hsize) as Hb.
  fold (totalPages filteredPrompts pageSize) in Hb.
  rewrite paginatedPrompts_take_drop by done. split_and!.
  - rewrite length_take. lia.
  - intros Hne. destruct filteredPrompts; [done|]. cbn [length] in Hb. nia.
  - intros Hle Hnil. apply (f_equal length) in Hnil.
    rewrite length_take, length_drop in Hnil. cbn [length] in Hnil. nia.
  - intros Hgt. rewrite drop_ge by nia. apply take_nil.
Qed.

Lemma page_bounds_witness :
  Z.of_nat (length (paginatedPrompts [1; 2; 3; 4; 5] 3 2)) ≤ 2 ∧
  ([1; 2; 3; 4; 5] ≠ [] → 1 ≤ totalPages [1; 2; 3; 4; 5] 2) ∧
  (3 ≤ totalPages [1; 2; 3; 4; 5] 2 →
   paginatedPrompts [1; 2; 3; 4; 5] 3 2 ≠ []) ∧
  (totalPages [1; 2; 3; 4; 5] 2 < 3 → paginatedPrompts [1; 2; 3; 4; 5] 3 2 = []).
Proof. apply page_bounds; lia. Defined.

End PromptListFacts.

(** ** storage.ts and the save effect of promptStore.tsx *)

Module StorageFacts.
Import ErrorHandler.
Import PromptReducer.
Import ExportImport.
Import Storage.

Lemma strict_equal_true (v : option json) (text : jsstring) :
  strict_equal v text = true ↔ v = Some (JString text).
Proof.
  unfold strict_equal. destruct v as [[| | |s| |]|]; try (by split).
  rewrite bool_decide_eq_true. split; [by intros ->|]. by intros [= ->].
Qed.

Section Environment.
Variable JSON_stringify : json → jsstring.
Variable JSON_parse : jsstring → Error + json.
Variable as_metadata : option json → jsstring.
Variable TypeError_null : Error.

Lemma loadPrompts_parsed (getItem removeItem : access)
    (localStorage : gmap jsstring jsstring) (stored : jsstring) (data : json)
    (now now' : Z) (stack1 stack2 : option jsstring) (handler : state) :
  getItem = Permitted → localStorage !! STORAGE_KEY = Some stored →
  truthy stored = true → JSON_parse stored = inr data → data ≠ JNull →
  loadPrompts JSON_parse as_metadata TypeError_null getItem removeItem
    localStorage now now' stack1 stack2 handler
  = if negb (strict_equal (get data (js "version")) STORAGE_VERSION) then
      let handler' :=
        handleStorageError handler
          (AnError (new_Error (js "Storage version mismatch") stack1))
          None (js "load")
          (with_metadata
             [(js "expectedVersion", STORAGE_VERSION);
              (js "foundVersion", as_metadata (get data (js "version")))])
          now stack1 in
      match removeItem with
      | Permitted => ([], delete STORAGE_KEY localStorage, handler')
      | Denied error DOMException_name =>
          ([], localStorage,
           handleStorageError handler' error DOMException_name
             (js "load") None now' stack2)
      end
    else
      match get data (js "prompts") with
      | Some (JArray prompts) => (prompts, localStorage, handler)
      | _ => ([], localStorage, handler)
      end.
Proof.
  intros -> Hstored Htext Hparse Hnull. unfold loadPrompts.
  rewrite Hstored, Htext, Hparse. by destruct data.
Qed.

(** X25. [loadPrompts] returns prompts only when the read is permitted and
    the stored text parses to an object with version "v1" and an array of
    prompts, and then it returns that array as it is, without a look at the
    items.  The only change it makes to the storage is to remove the item,
    and that only when the stored text parses to data that is not [null]
    and has another version (or none) and the removal is permitted.  It
    logs nothing, or it returns the empty list and logs one STORAGE error,
    or two when the removal after a version mismatch is refused; a read
    that is refused with a SecurityError is logged once, as CRITICAL. *)
Theorem loadPrompts_outcomes (getItem removeItem : access)
    (localStorage : gmap jsstring jsstring)
    (now now' : Z) (stack1 stack2 : option jsstring) (handler : state) :
  match loadPrompts JSON_parse as_metadata TypeError_null getItem removeItem
          localStorage now now' stack1 stack2 handler with
  | (result, localStorage', handler') =>
      (result ≠ [] →
       getItem = Permitted ∧
       ∃ stored data,
         localStorage !! STORAGE_KEY = Some stored ∧
         JSON_parse stored = inr data ∧
         get data (js "version") = Some (JString STORAGE_VERSION) ∧
         get data (js "prompts") = Some (JArray result) ∧
         localStorage' = localStorage ∧ handler' = handler) ∧
      (localStorage' = localStorage ∨
       localStorage' = delete STORAGE_KEY localStorage ∧
       getItem = Permitted ∧ removeItem = Permitted ∧
       ∃ stored data,
         localStorage !! STORAGE_KEY = Some stored ∧
         JSON_parse stored = inr data ∧ data ≠ JNull ∧
         get data (js "version") ≠ Some (JString STORAGE_VERSION)) ∧
      (handler' = handler ∨
       result = [] ∧
       ((∃ c, handler' = logError handler c ∧
              arg_category c = Some STORAGE ∧ ErrorHandler.Date_now c = now) ∨
        (∃ c c' error DOMException_name,
           removeItem = Denied error DOMException_name ∧
           localStorage' = localStorage ∧
           handler' = logError (logError handler c) c' ∧
           arg_category c = Some STORAGE ∧ arg_category c' = Some STORAGE ∧
           arg_error c' = error ∧
           ErrorHandler.Date_now c = now ∧ ErrorHandler.Date_now c' = now'))) ∧
      (∀ error, getItem = Denied error (Some (js "SecurityError")) →
         result = [] ∧ localStorage' = localStorage ∧
         ∃ c, handler' = logError handler c ∧ arg_error c = error ∧
              arg_category c = Some STORAGE ∧ arg_severity c = Some CRITICAL)
  end.
Proof.
  destruct getItem as [|error DOMException_name].
  2:{ cbn [loadPrompts]. split_and!; [done|by left| |].
      - right. split; [done|]. left. by eexists.
      - intros error' [= -> ->]. split; [done|]. split; [done|]. by eexists. }
  destruct (localStorage !! STORAGE_KEY) as [stored|] eqn:Hstored.
  2:{ unfold loadPrompts. rewrite Hstored. by split_and!; [|left|left|]. }
  destruct (truthy stored) eqn:Htext.
  2:{ unfold loadPrompts. rewrite Hstored, Htext. by split_and!; [|left|left|]. }
  destruct (JSON_parse stored) as [error|data] eqn:Hparse.
  { unfold loadPrompts. rewrite Hstored, Htext, Hparse. cbn [negb].
    split_and!; [done|by left| |done].
    right. split; [done|]. left. by eexists. }
  assert (Hcases : data = JNull ∨ data ≠ JNull)
    by (destruct data; (by left) || (by right)).
  destruct Hcases as [->|Hnull].
  { unfold loadPrompts. rewrite Hstored, Htext, Hparse. cbn [negb].
    split_and!; [done|by left| |done].
    right. split; [done|]. left. by eexists. }
  rewrite (loadPrompts_parsed _ _ _ _ _ _ _ _ _ _ eq_refl Hstored Htext Hparse Hnull).
  destruct (strict_equal (get data (js "version")) STORAGE_VERSION) eqn:Hversion;
    cbn [negb].
  - apply strict_equal_true in Hversion.
    destruct (get data (js "prompts")) as [[| | | |prompts|]|] eqn:Hprompts;
      try (by split_and!; [|left|left|]).
    split_and!; [|by left|by left|done]. intros _. split; [done|].
    by exists stored, data.
  - assert (Hv : get data (js "version") ≠ Some (JString STORAGE_VERSION)).
    { intros Hv. apply strict_equal_true in Hv. congruence. }
    destruct removeItem as [|error DOMException_name].
    + split_and!; [done| | |done].
      * right. split; [done|]. split; [done|]. split; [done|].
        by exists stored, data.
      * right. split; [done|]. left. by eexists.
    + split_and!; [done|by left| |done].
      right. split; [done|]. right. by eexists _, _, _, _.
Qed.

(** X26. What [savePrompts] stores, [loadPrompts] returns: if the write
    succeeds and [JSON.parse] gives back the object that [JSON.stringify]
    serialised to a text that is not empty, then loading from the storage
    after the save (the read being permitted) gives the saved prompts, in
    order and field by field, and neither call logs or throws. *)
Theorem save_then_load (prompts : list Prompt) (removeItem : access)
    (localStorage : gmap jsstring jsstring)
    (now now1 now2 : Z) (stack' stack1 stack2 : option jsstring)
    (handler : state) :
  truthy (JSON_stringify (StorageSchema prompts)) = true →
  JSON_parse (JSON_stringify (StorageSchema prompts))
  = inr (StorageSchema prompts) →
  ∃ localStorage',
    savePrompts JSON_stringify prompts Stored localStorage now stack' handler
    = (None, localStorage', handler) ∧
    loadPrompts JSON_parse as_metadata TypeError_null Permitted removeItem
      localStorage' now1 now2 stack1 stack2 handler
    = (to_json <$> prompts, localStorage', handler) ∧
    as_Prompt <$> (to_json <$> prompts) = Some <$> prompts.
Proof.
  intros Htext Hparse. eexists. split; [done|]. split.
  - unfold loadPrompts. rewrite lookup_insert_eq, Htext. cbn [negb].
    by rewrite Hparse.
  - rewrite <- list_fmap_compose. apply list_fmap_ext.
    intros _ p _. by destruct p.
Qed.

(** X27. A save that fails leaves the storage as it was and is logged
    twice as a STORAGE error, once by [savePrompts] and once by the effect
    that called it.  For a QuotaExceededError the first entry has the
    error and severity HIGH, the second the replacing error "Storage quota
    exceeded. ..." and severity MEDIUM only; for any other error both
    entries have that error and the same severity. *)
Theorem failed_save_logged_twice (state : PromptState) (error : thrown)
    (DOMException_name : option jsstring)
    (localStorage : gmap jsstring jsstring)
    (now now' : Z) (stack' stack'' : option jsstring)
    (handler : ErrorHandler.state) :
  isLoading state = false →
  ∃ c c',
    save_effect JSON_stringify state (Throws error DOMException_name)
      localStorage now now' stack' stack'' handler
    = (localStorage, logError (logError handler c) c') ∧
    arg_error c = error ∧
    arg_category c = Some STORAGE ∧ arg_category c' = Some STORAGE ∧
    (DOMException_name = Some (js "QuotaExceededError") →
     arg_severity c = Some HIGH ∧ arg_severity c' = Some MEDIUM ∧
     arg_error c'
     = AnError
         (new_Error
            (js "Storage quota exceeded. Please free up some space and try again.")
            stack')) ∧
    (DOMException_name ≠ Some (js "QuotaExceededError") →
     arg_error c' = error ∧ arg_severity c' = arg_severity c).
Proof.
  intros Hloaded. unfold save_effect, savePrompts. rewrite Hloaded.
  destruct (decide (DOMException_name = Some (js "QuotaExceededError")))
    as [->|Hother].
  - eexists _, _. split; [reflexivity|]. split_and!; try done.
  - eexists _, _. split; [reflexivity|]. split_and!; try done.
Qed.

End Environment.

Lemma save_then_load_witness :
  let prompts :=
    [{| id := js "id-1"; title := js "Greeting"; category := js "Other";
        template := js "Hello {name}"; createdAt := 1; updatedAt := 2 |}] in
  let JSON_stringify := λ _ : json, js "{}" in
  let JSON_parse := λ _ : jsstring, inr (StorageSchema prompts) : Error + json in
  ∃ localStorage',
    savePrompts JSON_stringify prompts Stored ∅ 1 None new
    = (None, localStorage', new) ∧
    loadPrompts JSON_parse (λ _, js "undefined") (new_Error [] None)
      Permitted Permitted localStorage' 2 3 None None new
    = (to_json <$> prompts, localStorage', new) ∧
    as_Prompt <$> (to_json <$> prompts) = Some <$> prompts.
Proof.
  intros prompts JSON_stringify JSON_parse.
  apply (save_then_load JSON_stringify JSON_parse (λ _, js "undefined")
           (new_Error [] None) prompts Permitted ∅ 1 2 3 None None None new);
    done.
Defined.

Lemma failed_save_logged_twice_witness :
  let state := {| prompts := []; isLoading := false |} in
  let error := AnError (new_Error (js "The quota has been exceeded.") None) in
  ∃ c c',
    save_effect (λ _, js "{}") state
      (Throws error (Some (js "QuotaExceededError"))) ∅ 1 2 None None new
    = (∅, logError (logError new c) c') ∧
    arg_error c = error ∧
    arg_category c = Some STORAGE ∧ arg_category c' = Some STORAGE ∧
    (Some (js "QuotaExceededError") = Some (js "QuotaExceededError") →
     arg_severity c = Some HIGH ∧ arg_severity c' = Some MEDIUM ∧
     arg_error c'
     = AnError
         (new_Error
            (js "Storage quota exceeded. Please free up some space and try again.")
            None)) ∧
    (Some (js "QuotaExceededError") ≠ Some (js "QuotaExceededError") →
     arg_error c' = error ∧ arg_severity c' = arg_severity c).
Proof.
  intros state error.
  apply (failed_save_logged_twice (λ _, js "{}") state error
           (Some (js "QuotaExceededError")) ∅ 1 2 None None new).
  reflexivity.
Defined.

End StorageFacts.
